(** * sentry.buffer.base: the default (pass-through) counter buffer

    A shallow embedding of [src/sentry/buffer/base.py].  The class [Buffer]
    keeps one piece of state of its own, the callback registry (a dict from
    names to callables); everything else it does is an effect on a
    collaborator: the task broker ([apply_async]), the backing store
    ([create_or_update]), the [buffer_incr_complete] signal ([send_robust])
    and the [warnings] module.  The embedding threads one [World] holding the
    Buffer instances and those collaborators through a state-and-exception
    monad. *)

From stdpp Require Import gmap strings list fin_maps.
From Stdlib Require Import ZArith.

Local Open Scope string_scope.
Local Open Scope list_scope.
Local Open Scope Z_scope.

(** ** Python values *)

Inductive Value :=
  | VNone
  | VInt (z : Z)
  | VStr (s : string).

Global Instance Value_eq_dec : EqDecision Value.
Proof. solve_decision. Defined.

(** Keyword dictionaries ([columns], [filters], [extra]) are dicts with
    string keys. *)
Abbreviation Columns := (gmap string Z).
Abbreviation Fields := (gmap string Value).

(** A model class, named by its class name. *)
Definition Model := string.

(** The right-hand sides that [process_incr] hands to the store:
    [F(c) + v], or a plain value taken from [extra]. *)
Inductive UpdateVal :=
  | FAdd (c : string) (v : Z)
  | Lit (x : Value).

Global Instance UpdateVal_eq_dec : EqDecision UpdateVal.
Proof. solve_decision. Defined.

(** ** Exceptions and callables *)

Inductive Exn :=
  | NotImplementedError
  | KeyError (k : string)
  | AttributeError (attr : string)
  | OperationalError
  | CallbackError (msg : string)
  | TypeError (msg : string).

(** A registered callback: a callable taking [value] as keyword argument.
    Its body is external code; what the buffer sees of it is whether the
    call returns or raises. *)
Record Callback := mkCallback {
  cb_name : string;
  cb_body : Value -> option Exn
}.

(** The keyword arguments of one [buffer_incr_complete] emission. *)
Record Payload := mkPayload {
  p_model : Model;
  p_columns : Columns;
  p_filters : Fields;
  p_extra : option Fields;
  p_created : bool;
  p_sender : Model
}.

Inductive Reply :=
  | Returned
  | Raised (msg : string).

(** A subscriber connected to the signal. *)
Record Receiver := mkReceiver {
  recv_name : string;
  recv_body : Payload -> Reply
}.

(** Units of work submitted to the task broker. *)
Inductive Task :=
  | TaskProcessIncr (model : Model) (columns : Columns) (filters : Fields)
                    (extra : option Fields)
  | TaskProcessCb (name : string) (value : Value).

(** Observable effects, oldest first in the log. *)
Inductive Event :=
  | EvCalled (cb : Callback) (value : Value)
  | EvStoreCall (model : Model) (values : gmap string UpdateVal)
                (filters : Fields)
  | EvSignal (p : Payload) (responses : list (string * Reply))
  | EvWarn (message : string) (category : string).

(** ** The world *)

Definition loc := nat.
Abbreviation Registry := (gmap string Callback).
Abbreviation Row := (gmap string Value).

Record World := mkWorld {
  heap : gmap loc Registry;        (* [self.registry] of each Buffer instance *)
  broker : list Task;              (* tasks submitted with [apply_async] *)
  db : gmap Model (list Row);      (* rows of each model's table *)
  db_online : bool;                (* is the backing store reachable *)
  receivers : list Receiver;       (* subscribers of [buffer_incr_complete] *)
  log : list Event
}.

Definition set_heap (h : gmap loc Registry) (w : World) : World :=
  mkWorld h (broker w) (db w) (db_online w) (receivers w) (log w).
Definition set_broker (b : list Task) (w : World) : World :=
  mkWorld (heap w) b (db w) (db_online w) (receivers w) (log w).
Definition set_db (d : gmap Model (list Row)) (w : World) : World :=
  mkWorld (heap w) (broker w) d (db_online w) (receivers w) (log w).
Definition set_log (l : list Event) (w : World) : World :=
  mkWorld (heap w) (broker w) (db w) (db_online w) (receivers w) l.

Definition emit (e : Event) (w : World) : World := set_log (log w ++ [e]) w.

(** ** State and exceptions *)

Inductive Outcome (A : Type) :=
  | Ok (a : A)
  | Raise (e : Exn).
Arguments Ok {A} a.
Arguments Raise {A} e.

Definition M (A : Type) : Type := World -> Outcome A * World.

Definition ret {A} (a : A) : M A := fun w => (Ok a, w).
Definition raise {A} (e : Exn) : M A := fun w => (Raise e, w).
Definition bind {A B} (m : M A) (k : A -> M B) : M B :=
  fun w => match m w with
           | (Ok a, w') => k a w'
           | (Raise e, w') => (Raise e, w')
           end.
Definition try_except {A} (m : M A) (handler : Exn -> M A) : M A :=
  fun w => match m w with
           | (Ok a, w') => (Ok a, w')
           | (Raise e, w') => handler e w'
           end.
Definition modify (f : World -> World) : M unit := fun w => (Ok tt, f w).

Declare Scope py_scope.
Delimit Scope py_scope with py.
Notation "x <- c1 ;; c2" := (bind c1 (fun x => c2))
  (at level 100, c1 at next level, right associativity) : py_scope.
Notation "c1 ;;; c2" := (bind c1 (fun _ => c2))
  (at level 100, right associativity) : py_scope.
Local Open Scope py_scope.

Definition outcome {A} (r : Outcome A * World) : Outcome A := fst r.
Definition after {A} (r : Outcome A * World) : World := snd r.

Definition raises {A} (r : Outcome A * World) : Prop :=
  exists e, outcome r = Raise e.

(** ** Collaborators *)

(** Modelled from the spec: the task objects [process_incr] and
    [process_cb] come from sentry.tasks.process_buffer, which is not under
    src/, and [apply_async] is theirs.  Section 6 describes the dispatch: the
    invocation is submitted as an asynchronous unit of work that an external
    scheduler delivers.  [task.apply_async(kwargs=...)] hands the unit of
    work to the broker and returns. *)
Definition apply_async (t : Task) : M unit :=
  modify (fun w => set_broker (broker w ++ [t]) w).

(** [cb(value=value)]. *)
Definition call (cb : Callback) (value : Value) : M unit :=
  modify (emit (EvCalled cb value)) ;;;
  match cb_body cb value with
  | None => ret tt
  | Some e => raise e
  end.

(** [warnings.warn(message, category)]. *)
Definition warn (message category : string) : M unit :=
  modify (emit (EvWarn message category)).

(** What a stored row reads as a counter: a missing or non-numeric field
    counts from zero. *)
Definition field_int (r : Row) (c : string) : Z :=
  match r !! c with
  | Some (VInt n) => n
  | _ => 0
  end.

(** The value an update expression takes on an existing row. *)
Definition resolve (r : Row) (u : UpdateVal) : Value :=
  match u with
  | FAdd c v => VInt (field_int r c + v)
  | Lit x => x
  end.

(** The value an update expression takes in a newly created row: the
    increment itself, or the overwrite value. *)
Definition initial (u : UpdateVal) : Value :=
  match u with
  | FAdd _ v => VInt v
  | Lit x => x
  end.

Definition apply_values (values : gmap string UpdateVal) (r : Row) : Row :=
  (resolve r <$> values) ∪ r.

Definition new_row (values : gmap string UpdateVal) (filters : Fields) : Row :=
  (initial <$> values) ∪ filters.

Definition matches (filters : Fields) (r : Row) : bool :=
  bool_decide (map_Forall (fun k v => r !! k = Some v) filters).

Definition table (w : World) (model : Model) : list Row :=
  default [] (db w !! model).

Inductive StoreResult :=
  | Affected (n : nat)
  | Instance (r : Row).

(** Modelled from the spec: [model.objects.create_or_update] lives in
    sentry.db.models, which is not under src/.  Section 4.4 and section 6
    describe it as an atomic find-or-create with column increments and field
    overwrites keyed by the filter criteria: the record identified by the
    filters is located; if absent it is created with the increment values as
    initial values; if present each column is incremented by its delta and
    the overwrite fields are set; it returns whether a record was newly
    created.  Section 7 adds that the write can fail when the backend is
    unavailable, and that the failure is not suppressed.  The request is
    logged whether or not the store is reachable. *)
Definition create_or_update (model : Model) (values : gmap string UpdateVal)
    (filters : Fields) : M (StoreResult * bool) :=
  fun w =>
    let w1 := emit (EvStoreCall model values filters) w in
    if db_online w then
      let rows := table w model in
      if existsb (matches filters) rows then
        let rows' :=
          map (fun r => if matches filters r then apply_values values r else r)
              rows in
        (Ok (Affected (length (filter (fun r => matches filters r = true) rows)), false),
         set_db (<[model := rows']> (db w)) w1)
      else
        let r := new_row values filters in
        (Ok (Instance r, true), set_db (<[model := rows ++ [r]]> (db w)) w1)
    else (Raise OperationalError, w1).

(** Modelled from the spec: [buffer_incr_complete] is declared in
    sentry.signals, which is not under src/.  Section 4.4 and section 6
    describe its robust delivery as a best-effort broadcast with error
    isolation per subscriber: every subscriber is called with the event, a
    subscriber that raises has its failure recorded in its own response, and
    the failure is never propagated to the sender. *)
Definition send_robust (p : Payload) : M (list (string * Reply)) :=
  fun w =>
    let responses := map (fun r => (recv_name r, recv_body r p)) (receivers w) in
    (Ok responses, emit (EvSignal p responses) w).

(** ** class Buffer *)

(** [Buffer()]: [__init__] gives the new instance a registry of its own. *)
Definition Buffer_new : M loc :=
  fun w =>
    let self := fresh (dom (heap w)) in
    (Ok self, set_heap (<[self := ∅]> (heap w)) w).

(** Reading the attribute [self.registry]. *)
Definition get_registry (self : loc) : M Registry :=
  fun w =>
    match heap w !! self with
    | Some r => (Ok r, w)
    | None => (Raise (AttributeError "registry"), w)
    end.

(** [d[name]] on a dict. *)
Definition dict_getitem (r : Registry) (name : string) : M Callback :=
  match r !! name with
  | Some cb => ret cb
  | None => raise (KeyError name)
  end.

Definition register_cb (self : loc) (name : string) (cb : Callback) : M unit :=
  r <- get_registry self ;;
  modify (fun w => set_heap (<[self := <[name := cb]> r]> (heap w)) w).

Definition apply (self : loc) (name : string) (value : Value) : M unit :=
  r <- get_registry self ;;
  match r !! name with
  | None => raise NotImplementedError
  | Some _ => apply_async (TaskProcessCb name value)
  end.

Definition incr (self : loc) (model : Model) (columns : Columns)
    (filters : Fields) (extra : option Fields) : M unit :=
  apply_async (TaskProcessIncr model columns filters extra).

Definition validate (self : loc) : M unit := ret tt.

Definition process_pending_incr (self : loc) : M (list Task) := ret [].

Definition process_pending_cb (self : loc) : M (list Task) := ret [].

Definition process_pending (self : loc) : M unit :=
  process_pending_incr self ;;;
  process_pending_cb self ;;;
  ret tt.

(** Truth value of [extra] in [if extra:]: [None] and the empty dict are
    false. *)
Definition truthy (extra : option Fields) : bool :=
  match extra with
  | None => false
  | Some e => negb (bool_decide (e = ∅))
  end.

(** [dict((c, F(c) + v) for c, v in six.iteritems(columns))], then
    [update_kwargs.update(extra)] when [extra] is true. *)
Definition update_kwargs (columns : Columns) (extra : option Fields)
    : gmap string UpdateVal :=
  let kw := map_imap (fun c v => Some (FAdd c v)) columns in
  if truthy extra then (Lit <$> default ∅ extra) ∪ kw else kw.

Definition duplicate_keyword : string :=
  "create_or_update() got multiple values for keyword argument 'values'".

(** The call [model.objects.create_or_update(values=update_kwargs,
    **filters)]: a key 'values' in [filters] collides with the keyword
    [values], and Python raises [TypeError] at the call, before anything of
    [create_or_update] runs. *)
Definition call_create_or_update (model : Model)
    (values : gmap string UpdateVal) (filters : Fields)
    : M (StoreResult * bool) :=
  match filters !! "values" with
  | Some _ => raise (TypeError duplicate_keyword)
  | None => create_or_update model values filters
  end.

Definition process_incr (self : loc) (model : Model) (columns : Columns)
    (filters : Fields) (extra : option Fields) : M unit :=
  res <- call_create_or_update model (update_kwargs columns extra) filters ;;
  send_robust (mkPayload model columns filters extra (snd res) model) ;;;
  ret tt.

Definition process_cb (self : loc) (name : string) (value : Value) : M unit :=
  cb <- try_except (r <- get_registry self ;; dict_getitem r name)
                   (fun e => match e with
                             | KeyError _ => raise NotImplementedError
                             | _ => raise e
                             end) ;;
  call cb value.

Definition deprecation_message : string :=
  "buffer.process is deprecated, use buffer.process_incr".

Definition process (self : loc) (model : Model) (columns : Columns)
    (filters : Fields) (extra : option Fields) : M unit :=
  warn deprecation_message "DeprecationWarning" ;;;
  process_incr self model columns filters extra.

(** Modelled from the spec: the tasks of sentry.tasks.process_buffer are not
    under src/.  Section 6 says that the dispatcher invocation is submitted
    as an asynchronous unit of work which an external scheduler delivers:
    the worker that receives a task calls the buffer's method of the same
    name with the submitted keyword arguments. *)
Definition run_task (self : loc) (t : Task) : M unit :=
  match t with
  | TaskProcessIncr model columns filters extra =>
      process_incr self model columns filters extra
  | TaskProcessCb name value => process_cb self name value
  end.

(** ** Call sequences

    A client drives a world through a sequence of method calls; an
    exception ends the call that raised it, not the sequence. *)

Inductive Call :=
  | CNew
  | CRegisterCb (self : loc) (name : string) (cb : Callback)
  | CApply (self : loc) (name : string) (value : Value)
  | CIncr (self : loc) (model : Model) (columns : Columns) (filters : Fields)
          (extra : option Fields)
  | CValidate (self : loc)
  | CProcessPending (self : loc)
  | CProcessIncr (self : loc) (model : Model) (columns : Columns)
                 (filters : Fields) (extra : option Fields)
  | CProcessCb (self : loc) (name : string) (value : Value)
  | CProcess (self : loc) (model : Model) (columns : Columns)
             (filters : Fields) (extra : option Fields).

Definition exec (c : Call) (w : World) : World :=
  match c with
  | CNew => after (Buffer_new w)
  | CRegisterCb self name cb => after (register_cb self name cb w)
  | CApply self name value => after (apply self name value w)
  | CIncr self model columns filters extra =>
      after (incr self model columns filters extra w)
  | CValidate self => after (validate self w)
  | CProcessPending self => after (process_pending self w)
  | CProcessIncr self model columns filters extra =>
      after (process_incr self model columns filters extra w)
  | CProcessCb self name value => after (process_cb self name value w)
  | CProcess self model columns filters extra =>
      after (process self model columns filters extra w)
  end.

Fixpoint run (cs : list Call) (w : World) : World :=
  match cs with
  | [] => w
  | c :: cs' => run cs' (exec c w)
  end.

(** Is [c] a call of [register_cb] for [name] on the instance [self]? *)
Definition registers (self : loc) (name : string) (c : Call) : bool :=
  match c with
  | CRegisterCb s n _ => bool_decide (s = self) && bool_decide (n = name)
  | _ => false
  end.

(** ** Callbacks that call back

    A callback is code of the caller's: besides returning or raising, its
    body may itself call methods of a buffer.  [code cb value] lists the
    calls that the body of [cb] makes, in order, when it is called with
    [value]; a call that raises inside the body is taken to be caught
    there.  [call] and [process_cb] above are the case of bodies that make
    no such call. *)

Definition call_with (code : Callback -> Value -> list Call) (cb : Callback)
    (value : Value) : M unit :=
  modify (emit (EvCalled cb value)) ;;;
  modify (run (code cb value)) ;;;
  match cb_body cb value with
  | None => ret tt
  | Some e => raise e
  end.

Definition process_cb_with (code : Callback -> Value -> list Call)
    (self : loc) (name : string) (value : Value) : M unit :=
  cb <- try_except (r <- get_registry self ;; dict_getitem r name)
                   (fun e => match e with
                             | KeyError _ => raise NotImplementedError
                             | _ => raise e
                             end) ;;
  call_with code cb value.

(** ** Vocabulary of the statements *)

(** The overwrite that [extra] holds for a field, if any. *)
Definition overrides (extra : option Fields) (c : string) : option Value :=
  extra ≫= (fun e => e !! c).

(** Does [process_incr] find no record for [filters], so that it creates
    one? *)
Definition is_created (w : World) (model : Model) (filters : Fields) : bool :=
  negb (existsb (matches filters) (table w model)).

(** The rows of [model] once [process_incr] has written to an online
    store. *)
Definition written (w : World) (model : Model) (columns : Columns)
    (filters : Fields) (extra : option Fields) : list Row :=
  let values := update_kwargs columns extra in
  if is_created w model filters
  then table w model ++ [new_row values filters]
  else map (fun r => if matches filters r then apply_values values r else r)
           (table w model).

(** The completion event of one [process_incr]: its payload and the
    response of every subscriber. *)
Definition completion_payload (w : World) (model : Model) (columns : Columns)
    (filters : Fields) (extra : option Fields) : Payload :=
  mkPayload model columns filters extra (is_created w model filters) model.

Definition completion (w : World) (model : Model) (columns : Columns)
    (filters : Fields) (extra : option Fields) : Event :=
  let p := completion_payload w model columns filters extra in
  EvSignal p (map (fun r => (recv_name r, recv_body r p)) (receivers w)).

(** A computation that leaves the registry of every instance as it was. *)
Definition keeps_heap {A} (m : M A) : Prop :=
  forall w, heap (after (m w)) = heap w.

Definition is_signal (e : Event) : bool :=
  match e with
  | EvSignal _ _ => true
  | _ => false
  end.

(** How many completion events a log holds. *)
Definition signals (l : list Event) : nat := length (List.filter is_signal l).

(** The fields of a record that [process_incr] created: an overwrite from
    [extra] where there is one, else the increment of a listed column, else
    the filter value. *)
Definition row_created (columns : Columns) (extra : option Fields)
    (filters : Fields) (r' : Row) : Prop :=
  forall c, r' !! c = match overrides extra c with
                      | Some x => Some x
                      | None => match columns !! c with
                                | Some d => Some (VInt d)
                                | None => filters !! c
                                end
                      end.

(** The fields of a record [r] that [process_incr] updated to [r']: an
    overwrite from [extra] where there is one, else a listed column grown by
    its delta, else the field as it was. *)
Definition row_updated (columns : Columns) (extra : option Fields)
    (r r' : Row) : Prop :=
  forall c, r' !! c = match overrides extra c with
                      | Some x => Some x
                      | None => match columns !! c with
                                | Some d => Some (VInt (field_int r c + d))
                                | None => r !! c
                                end
                      end.

(** Every listed column of [r] has grown by its delta in [r']. *)
Definition row_incremented (columns : Columns) (r r' : Row) : Prop :=
  forall c d, columns !! c = Some d ->
    r' !! c = Some (VInt (field_int r c + d)).

(** A second [register_cb] for a name that is taken is refused and the
    entry stays. *)
Definition second_registration_refused (w : World) (self : loc)
    (name : string) (cb : Callback) : Prop :=
  forall r old, heap w !! self = Some r -> r !! name = Some old ->
    raises (register_cb self name cb w) /\
    exists r', heap (after (register_cb self name cb w)) !! self = Some r' /\
               r' !! name = Some old.

(** [process_cb] leaves every registry as it was, whatever the callback
    does. *)
Definition process_cb_keeps_registry (code : Callback -> Value -> list Call)
    (w : World) (self : loc) (name : string) (value : Value) : Prop :=
  heap (after (process_cb_with code self name value w)) = heap w.

(** ** Sample worlds *)

Definition cb_flush : Callback := mkCallback "flush" (fun _ => None).
Definition cb_boom : Callback :=
  mkCallback "boom" (fun _ => Some (CallbackError "boom")).

Definition recv_bad : Receiver := mkReceiver "bad" (fun _ => Raised "oops").
Definition recv_good : Receiver := mkReceiver "good" (fun _ => Returned).

Definition group_row : Row := {[ "pk" := VInt 7; "times_seen" := VInt 5 ]}.

(** One table with one row, two subscribers of which the first raises, no
    Buffer yet. *)
Definition world_empty : World :=
  mkWorld ∅ [] {[ "Group" := [group_row] ]} true [recv_bad; recv_good] [].

Definition buf : loc := 0%nat.

(** After [Buffer()]. *)
Definition world_new : World := after (Buffer_new world_empty).

(** After [register_cb('flush', cb_flush)] on that instance. *)
Definition world_reg : World := after (register_cb buf "flush" cb_flush world_new).

(** Bodies: the callback named 'flush' registers another callback under
    'stats' on the instance [buf]; the others call nothing. *)
Definition code_registering (cb : Callback) (value : Value) : list Call :=
  if String.eqb (cb_name cb) "flush"
  then [CRegisterCb buf "stats" cb_boom]
  else [].

Definition seen_once : Columns := {[ "times_seen" := 1 ]}.
Definition by_pk (k : Z) : Fields := {[ "pk" := VInt k ]}.
Definition seen_100 : Fields := {[ "times_seen" := VInt 100 ]}.

(** ** class BufferMount

    The metaclass gives every class it creates, [Buffer] and each subclass,
    a [logger] attribute: [logging.getLogger('sentry.buffer.%s' %
    (new_cls.__name__.lower(),))].  A logger is identified by its name:
    [getLogger] returns the same logger for the same name.

    Only class names made of ASCII characters are modelled.  On them
    [str.lower()] works character by character, moving A to Z to a to z.
    Outside ASCII its result depends on the Python version and on Unicode
    case rules and can even change the length; there the model gives no
    result. *)

Definition is_ascii (a : Ascii.ascii) : bool :=
  (Ascii.nat_of_ascii a <? 128)%nat.

Definition is_upper (a : Ascii.ascii) : bool :=
  let n := Ascii.nat_of_ascii a in (65 <=? n)%nat && (n <=? 90)%nat.

(** [str.lower()] on one ASCII character: the letters A to Z move to a to
    z, every other ASCII character stays. *)
Definition lower_ascii (a : Ascii.ascii) : Ascii.ascii :=
  if is_upper a then Ascii.ascii_of_nat (Ascii.nat_of_ascii a + 32) else a.

(** [lower_ascii] along a string of ASCII characters. *)
Fixpoint lower (s : string) : string :=
  match s with
  | EmptyString => EmptyString
  | String a s' => String (lower_ascii a) (lower s')
  end.

Fixpoint all_chars (p : Ascii.ascii -> bool) (s : string) : bool :=
  match s with
  | EmptyString => true
  | String a s' => p a && all_chars p s'
  end.

Record BufferClass := mkBufferClass {
  cls_name : string;       (* [__name__] *)
  cls_logger : string      (* the name of [logger] *)
}.

(** [name.lower()] for a class name: defined on ASCII names only. *)
Definition str_lower (name : string) : option string :=
  if all_chars is_ascii name then Some (lower name) else None.

(** [BufferMount.__new__(cls, name, bases, attrs)]; neither [bases] nor
    [attrs] enters the logger. *)
Definition BufferMount_new (name : string) : option BufferClass :=
  match str_lower name with
  | Some lowered =>
      Some (mkBufferClass name (String.append "sentry.buffer." lowered))
  | None => None
  end.

(** ** Vocabulary of the further properties *)

(** The callback that [c] registers under [name] on [self], if [c] is such
    a registration. *)
Definition registered_by (self : loc) (name : string) (c : Call)
    : option Callback :=
  match c with
  | CRegisterCb s n cb =>
      if bool_decide (s = self) && bool_decide (n = name) then Some cb else None
  | _ => None
  end.

(** The callback of the last registration of [name] on [self] in [cs]. *)
Fixpoint last_registered (self : loc) (name : string) (cs : list Call)
    : option Callback :=
  match cs with
  | [] => None
  | c :: cs' =>
      match last_registered self name cs' with
      | Some cb => Some cb
      | None => registered_by self name c
      end
  end.

(** The task a call hands to the broker when it gets that far. *)
Definition submits (c : Call) : list Task :=
  match c with
  | CIncr _ model columns filters extra =>
      [TaskProcessIncr model columns filters extra]
  | CApply _ name value => [TaskProcessCb name value]
  | _ => []
  end.

Definition is_apply (c : Call) : bool :=
  match c with
  | CApply _ _ _ => true
  | _ => false
  end.

(** The calls whose own code goes to the backing store. *)
Definition writes_store (c : Call) : bool :=
  match c with
  | CProcessIncr _ _ _ _ _ | CProcess _ _ _ _ _ => true
  | _ => false
  end.

(** Of those, the calls that get as far as the store: the ones whose
    filters do not collide with the keyword [values]. *)
Definition reaches_store (c : Call) : bool :=
  match c with
  | CProcessIncr _ _ _ filters _ | CProcess _ _ _ filters _ =>
      bool_decide (filters !! "values" = None)
  | _ => false
  end.

(** The calls that run a callback, which is code of the caller's. *)
Definition runs_callback (c : Call) : bool :=
  match c with
  | CProcessCb _ _ _ => true
  | _ => false
  end.

Definition is_store_call (e : Event) : bool :=
  match e with
  | EvStoreCall _ _ _ => true
  | _ => false
  end.

Definition store_calls (l : list Event) : nat :=
  length (List.filter is_store_call l).

(** How many calls of a sequence reach the backing store. *)
Definition count_writes (cs : list Call) : nat :=
  length (List.filter reaches_store cs).

(** The sample world with the backing store unreachable. *)
Definition world_offline : World :=
  mkWorld (heap world_reg) [] (db world_reg) false (receivers world_reg) [].

(** * Properties *)

(** ** Frame: which computations leave every registry alone *)

Lemma keeps_heap_ret {A} (a : A) : keeps_heap (ret a).
Proof. intros w. reflexivity. Qed.

Lemma keeps_heap_raise {A} (e : Exn) : keeps_heap (@raise A e).
Proof. intros w. reflexivity. Qed.

Lemma keeps_heap_bind {A B} (m : M A) (k : A -> M B) :
  keeps_heap m -> (forall a, keeps_heap (k a)) -> keeps_heap (bind m k).
Proof.
  intros Hm Hk w. unfold bind, after. specialize (Hm w). unfold after in Hm.
  destruct (m w) as [[a|e] w'] eqn:E; simpl in *.
  - rewrite <- Hm. apply Hk.
  - exact Hm.
Qed.

Lemma keeps_heap_try_except {A} (m : M A) (h : Exn -> M A) :
  keeps_heap m -> (forall e, keeps_heap (h e)) -> keeps_heap (try_except m h).
Proof.
  intros Hm Hh w. unfold try_except, after. specialize (Hm w). unfold after in Hm.
  destruct (m w) as [[a|e] w'] eqn:E; simpl in *.
  - exact Hm.
  - rewrite <- Hm. apply Hh.
Qed.

Lemma keeps_heap_modify (f : World -> World) :
  (forall w, heap (f w) = heap w) -> keeps_heap (modify f).
Proof. intros Hf w. apply Hf. Qed.

Lemma keeps_heap_get_registry self : keeps_heap (get_registry self).
Proof. intros w. unfold get_registry, after. destruct (heap w !! self); reflexivity. Qed.

Lemma keeps_heap_dict_getitem r name : keeps_heap (dict_getitem r name).
Proof. intros w. unfold dict_getitem. destruct (r !! name); reflexivity. Qed.

Lemma keeps_heap_apply_async t : keeps_heap (apply_async t).
Proof. apply keeps_heap_modify. reflexivity. Qed.

Lemma keeps_heap_warn msg cat : keeps_heap (warn msg cat).
Proof. apply keeps_heap_modify. reflexivity. Qed.

Lemma keeps_heap_call cb value : keeps_heap (call cb value).
Proof.
  apply keeps_heap_bind.
  - apply keeps_heap_modify. reflexivity.
  - intros _. destruct (cb_body cb value);
      [apply keeps_heap_raise | apply keeps_heap_ret].
Qed.

Lemma keeps_heap_create_or_update model values filters :
  keeps_heap (create_or_update model values filters).
Proof.
  intros w. unfold create_or_update, after.
  destruct (db_online w); [|reflexivity].
  destruct (existsb _ _); reflexivity.
Qed.

Lemma keeps_heap_send_robust p : keeps_heap (send_robust p).
Proof. intros w. reflexivity. Qed.

Lemma keeps_heap_call_create_or_update model values filters :
  keeps_heap (call_create_or_update model values filters).
Proof.
  unfold call_create_or_update. destruct (filters !! "values").
  - intros w. reflexivity.
  - apply keeps_heap_create_or_update.
Qed.

Create HintDb frame.
#[local] Hint Resolve keeps_heap_ret keeps_heap_raise keeps_heap_bind
  keeps_heap_try_except keeps_heap_get_registry keeps_heap_dict_getitem
  keeps_heap_apply_async keeps_heap_warn keeps_heap_call
  keeps_heap_create_or_update keeps_heap_send_robust
  keeps_heap_call_create_or_update : frame.

Lemma keeps_heap_apply self name value : keeps_heap (apply self name value).
Proof.
  unfold apply. apply keeps_heap_bind; [auto with frame|].
  intros r. destruct (r !! name); auto with frame.
Qed.

Lemma keeps_heap_incr self model columns filters extra :
  keeps_heap (incr self model columns filters extra).
Proof. unfold incr. auto with frame. Qed.

Lemma keeps_heap_validate self : keeps_heap (validate self).
Proof. unfold validate. auto with frame. Qed.

Lemma keeps_heap_process_pending self : keeps_heap (process_pending self).
Proof.
  unfold process_pending, process_pending_incr, process_pending_cb.
  repeat (apply keeps_heap_bind; [auto with frame | intros ?]).
  auto with frame.
Qed.

Lemma keeps_heap_process_incr self model columns filters extra :
  keeps_heap (process_incr self model columns filters extra).
Proof.
  unfold process_incr.
  repeat (apply keeps_heap_bind; [auto with frame | intros ?]).
  auto with frame.
Qed.

Lemma keeps_heap_process_cb self name value :
  keeps_heap (process_cb self name value).
Proof.
  unfold process_cb. apply keeps_heap_bind; [|auto with frame].
  apply keeps_heap_try_except.
  - apply keeps_heap_bind; auto with frame.
  - intros []; auto with frame.
Qed.

Lemma keeps_heap_process self model columns filters extra :
  keeps_heap (process self model columns filters extra).
Proof.
  unfold process. apply keeps_heap_bind; [auto with frame | intros _].
  apply keeps_heap_process_incr.
Qed.

(** ** The registry along a call sequence *)

Lemma register_cb_live w self r name cb :
  heap w !! self = Some r ->
  register_cb self name cb w
  = (Ok tt, set_heap (<[self := <[name := cb]> r]> (heap w)) w).
Proof.
  intros H. unfold register_cb, bind, get_registry. rewrite H. reflexivity.
Qed.

Lemma register_cb_no_attribute w self name cb :
  heap w !! self = None ->
  register_cb self name cb w = (Raise (AttributeError "registry"), w).
Proof.
  intros H. unfold register_cb, bind, get_registry. rewrite H. reflexivity.
Qed.

Lemma Buffer_new_fresh w : heap w !! fresh (dom (heap w)) = None.
Proof. apply not_elem_of_dom. apply is_fresh. Qed.

Lemma exec_registry c w self r :
  heap w !! self = Some r ->
  exists r', heap (exec c w) !! self = Some r' /\
    forall name, is_Some (r' !! name)
                 <-> is_Some (r !! name) \/ registers self name c = true.
Proof.
  intros H.
  assert (Hsame : forall w', heap w' = heap w ->
    exists r', heap w' !! self = Some r' /\
      forall name, is_Some (r' !! name) <-> is_Some (r !! name) \/ false = true).
  { intros w' Hw'. exists r. rewrite Hw'. split; [exact H|].
    intros name. split; [auto | intros [?|?]; [auto | discriminate]]. }
  destruct c as [|s n cb|s n v|s m c f e|s|s|s m c f e|s n v|s m c f e];
    cbn [exec registers].
  - (* Buffer() *)
    exists r. split.
    + unfold Buffer_new, after; simpl. rewrite lookup_insert_ne; [exact H|].
      intros Heq. pose proof (Buffer_new_fresh w) as Hf. rewrite Heq in Hf.
      congruence.
    + intros name. split; [auto | intros [?|?]; [auto | discriminate]].
  - (* register_cb *)
    destruct (heap w !! s) as [rs|] eqn:Hs.
    + rewrite (register_cb_live _ _ _ _ _ Hs). unfold after; simpl.
      destruct (decide (s = self)) as [->|Hne].
      * rewrite lookup_insert_eq. eexists; split; [reflexivity|].
        assert (rs = r) as -> by congruence.
        intros name. rewrite bool_decide_eq_true_2 by reflexivity. simpl.
        destruct (decide (n = name)) as [->|Hn].
        -- rewrite lookup_insert_eq, bool_decide_eq_true_2 by reflexivity.
           split; [auto | eauto].
        -- rewrite lookup_insert_ne by exact Hn.
           rewrite bool_decide_eq_false_2 by exact Hn.
           split; [auto | intros [?|?]; [auto | discriminate]].
      * rewrite lookup_insert_ne by exact Hne. exists r. split; [exact H|].
        intros name. rewrite bool_decide_eq_false_2 by exact Hne. simpl.
        split; [auto | intros [?|?]; [auto | discriminate]].
    + rewrite (register_cb_no_attribute _ _ _ _ Hs). unfold after; simpl.
      exists r. split; [exact H|]. intros name.
      rewrite bool_decide_eq_false_2 by congruence. simpl.
      split; [auto | intros [?|?]; [auto | discriminate]].
  - apply Hsame. apply keeps_heap_apply.
  - apply Hsame. apply keeps_heap_incr.
  - apply Hsame. apply keeps_heap_validate.
  - apply Hsame. apply keeps_heap_process_pending.
  - apply Hsame. apply keeps_heap_process_incr.
  - apply Hsame. apply keeps_heap_process_cb.
  - apply Hsame. apply keeps_heap_process.
Qed.

Lemma run_registry cs : forall w self r,
  heap w !! self = Some r ->
  exists r', heap (run cs w) !! self = Some r' /\
    forall name, is_Some (r' !! name)
                 <-> is_Some (r !! name)
                     \/ existsb (registers self name) cs = true.
Proof.
  induction cs as [|c cs IH]; intros w self r H; simpl.
  - exists r. split; [exact H|]. intros name.
    split; [auto | intros [?|?]; [auto | discriminate]].
  - destruct (exec_registry c w self r H) as (r1 & H1 & Hc).
    destruct (IH (exec c w) self r1 H1) as (r2 & H2 & Hcs).
    exists r2. split; [exact H2|]. intros name.
    rewrite Hcs, Hc, orb_true_iff. tauto.
Qed.

(** ** What each method does on a live instance *)

Lemma apply_unregistered w self r name value :
  heap w !! self = Some r -> r !! name = None ->
  apply self name value w = (Raise NotImplementedError, w).
Proof.
  intros H Hn. unfold apply, bind, get_registry. rewrite H, Hn. reflexivity.
Qed.

Lemma apply_registered w self r name cb value :
  heap w !! self = Some r -> r !! name = Some cb ->
  apply self name value w
  = (Ok tt, set_broker (broker w ++ [TaskProcessCb name value]) w).
Proof.
  intros H Hn. unfold apply, bind, get_registry. rewrite H, Hn. reflexivity.
Qed.

Lemma process_cb_unregistered w self r name value :
  heap w !! self = Some r -> r !! name = None ->
  process_cb self name value w = (Raise NotImplementedError, w).
Proof.
  intros H Hn. unfold process_cb, bind, try_except, get_registry, dict_getitem.
  rewrite H, Hn. reflexivity.
Qed.

Lemma process_cb_registered w self r name cb value :
  heap w !! self = Some r -> r !! name = Some cb ->
  process_cb self name value w
  = (match cb_body cb value with None => Ok tt | Some e => Raise e end,
     emit (EvCalled cb value) w).
Proof.
  intros H Hn. unfold process_cb, bind, try_except, get_registry, dict_getitem.
  rewrite H, Hn. unfold call, bind, modify, ret, raise.
  destruct (cb_body cb value); reflexivity.
Qed.

(** ** The update handed to the store *)

Lemma truthy_Some_lookup (e : Fields) c x :
  e !! c = Some x -> truthy (Some e) = true.
Proof.
  intros H. unfold truthy. apply negb_true_iff, bool_decide_eq_false_2.
  intros ->. rewrite lookup_empty in H. discriminate.
Qed.

Lemma update_kwargs_lookup columns extra c :
  update_kwargs columns extra !! c
  = match overrides extra c with
    | Some x => Some (Lit x)
    | None => FAdd c <$> columns !! c
    end.
Proof.
  unfold update_kwargs.
  assert (Hkw : map_imap (fun c v => Some (FAdd c v)) columns !! c
                = FAdd c <$> columns !! c).
  { rewrite map_lookup_imap. destruct (columns !! c); reflexivity. }
  destruct extra as [e|]; [|exact Hkw].
  change (overrides (Some e) c) with (e !! c).
  change (default ∅ (Some e)) with e.
  - destruct (e !! c) as [x|] eqn:Hx.
    + rewrite (truthy_Some_lookup e c x Hx).
      apply lookup_union_Some_l. rewrite lookup_fmap, Hx. reflexivity.
    + destruct (truthy (Some e)); [|exact Hkw].
      rewrite lookup_union_r; [exact Hkw|].
      rewrite lookup_fmap, Hx. reflexivity.
Qed.

Lemma apply_values_lookup values r c :
  apply_values values r !! c
  = match values !! c with
    | Some u => Some (resolve r u)
    | None => r !! c
    end.
Proof.
  unfold apply_values. destruct (values !! c) as [u|] eqn:Hu.
  - apply lookup_union_Some_l. rewrite lookup_fmap, Hu. reflexivity.
  - rewrite lookup_union_r; [reflexivity|]. rewrite lookup_fmap, Hu. reflexivity.
Qed.

Lemma new_row_lookup values filters c :
  new_row values filters !! c
  = match values !! c with
    | Some u => Some (initial u)
    | None => filters !! c
    end.
Proof.
  unfold new_row. destruct (values !! c) as [u|] eqn:Hu.
  - apply lookup_union_Some_l. rewrite lookup_fmap, Hu. reflexivity.
  - rewrite lookup_union_r; [reflexivity|]. rewrite lookup_fmap, Hu. reflexivity.
Qed.

(** ** [process_incr], step by step *)

Lemma process_incr_online w self model columns filters extra :
  db_online w = true -> filters !! "values" = None ->
  process_incr self model columns filters extra w
  = (Ok tt,
     set_log (log w ++ [EvStoreCall model (update_kwargs columns extra) filters;
                        completion w model columns filters extra])
       (set_db (<[model := written w model columns filters extra]> (db w)) w)).
Proof.
  intros Hon Hv.
  unfold process_incr, bind, call_create_or_update, create_or_update,
    send_robust, completion, completion_payload, written, is_created.
  rewrite Hv, Hon.
  destruct (existsb (matches filters) (table w model)); simpl;
    unfold emit, set_log, set_db; simpl; rewrite <- app_assoc; reflexivity.
Qed.

Lemma process_incr_offline w self model columns filters extra :
  db_online w = false -> filters !! "values" = None ->
  process_incr self model columns filters extra w
  = (Raise OperationalError,
     emit (EvStoreCall model (update_kwargs columns extra) filters) w).
Proof.
  intros Hoff Hv.
  unfold process_incr, bind, call_create_or_update, create_or_update.
  rewrite Hv, Hoff. reflexivity.
Qed.

Lemma process_incr_duplicate_keyword w self model columns filters extra v :
  filters !! "values" = Some v ->
  process_incr self model columns filters extra w
  = (Raise (TypeError duplicate_keyword), w).
Proof.
  intros Hv. unfold process_incr, bind, call_create_or_update.
  rewrite Hv. reflexivity.
Qed.

Lemma is_created_true_iff w model filters :
  is_created w model filters = true
  <-> forall r, r ∈ table w model -> matches filters r = false.
Proof.
  unfold is_created. rewrite negb_true_iff. split.
  - intros H r Hr. destruct (matches filters r) eqn:Hm; [|reflexivity].
    assert (existsb (matches filters) (table w model) = true) as Hex.
    { apply existsb_exists. exists r. split; [|exact Hm].
      apply list_elem_of_In. exact Hr. }
    congruence.
  - intros H. destruct (existsb _ _) eqn:Hex; [|reflexivity].
    apply existsb_exists in Hex. destruct Hex as (r & Hr & Hm).
    apply list_elem_of_In in Hr. rewrite (H r Hr) in Hm. discriminate.
Qed.

Lemma table_set_db w model rows m :
  table (set_db (<[model := rows]> (db w)) w) m
  = if decide (model = m) then rows else table w m.
Proof.
  unfold table, set_db; simpl. rewrite lookup_insert.
  destruct (decide (model = m)); reflexivity.
Qed.

Lemma row_created_new_row columns extra filters :
  row_created columns extra filters
    (new_row (update_kwargs columns extra) filters).
Proof.
  intros c. rewrite new_row_lookup, update_kwargs_lookup.
  destruct (overrides extra c); [reflexivity|].
  destruct (columns !! c); reflexivity.
Qed.

Lemma row_updated_apply_values columns extra r :
  row_updated columns extra r (apply_values (update_kwargs columns extra) r).
Proof.
  intros c. rewrite apply_values_lookup, update_kwargs_lookup.
  destruct (overrides extra c); [reflexivity|].
  destruct (columns !! c); reflexivity.
Qed.

(** * The claims *)

(** ** Registration *)

(** C1, as stated, fails: on an instance where "flush" is registered, a
    second [register_cb] for "flush" raises nothing and the entry no longer
    holds the first callback. *)
Lemma register_cb_twice_not_refused :
  ~ second_registration_refused world_reg buf "flush" cb_boom.
Proof.
  intros H.
  assert (Hheap : heap world_reg !! buf = Some {[ "flush" := cb_flush ]})
    by reflexivity.
  assert (Hold : ({[ "flush" := cb_flush ]} : Registry) !! "flush"
                 = Some cb_flush) by reflexivity.
  destruct (H _ _ Hheap Hold) as [[e He] _].
  vm_compute in He. discriminate He.
Qed.

(** C1 (amended): for every buffer instance and every callback name that
    is already present in its registry, a second call to [register_cb] with
    the same name succeeds: the entry under that name is replaced by the new
    callback, every other entry of the registry is kept, and nothing else in
    the world changes. *)
Theorem register_cb_overwrites w self r name old cb :
  heap w !! self = Some r -> r !! name = Some old ->
  exists r',
    register_cb self name cb w = (Ok tt, set_heap (<[self := r']> (heap w)) w)
    /\ r' !! name = Some cb
    /\ forall other, other <> name -> r' !! other = r !! other.
Proof.
  intros Hself _. exists (<[name := cb]> r). split; [|split].
  - apply register_cb_live. exact Hself.
  - apply lookup_insert_eq.
  - intros other Hne. apply lookup_insert_ne. congruence.
Qed.

Lemma register_cb_overwrites_witness :
  exists r',
    register_cb buf "flush" cb_boom world_reg
    = (Ok tt, set_heap (<[buf := r']> (heap world_reg)) world_reg)
    /\ r' !! "flush" = Some cb_boom
    /\ forall other, other <> "flush"
         -> r' !! other = ({[ "flush" := cb_flush ]} : Registry) !! other.
Proof.
  apply (register_cb_overwrites world_reg buf {[ "flush" := cb_flush ]}
           "flush" cb_flush cb_boom); reflexivity.
Defined.

(** ** [apply] *)

(** C2: on an instance whose registry started empty, after any sequence of
    calls, [apply(name, value)] raises exactly when no [register_cb] for
    [name] was made on that instance.  When it raises it raises
    [NotImplementedError] and leaves the world as it was, so no callback
    runs and no task is submitted; otherwise it submits one [process_cb]
    task carrying [name] and [value] to the broker and returns.  In both
    cases the log is unchanged: no callback is called inside [apply]. *)
Theorem apply_raises_iff_never_registered w self cs name value :
  heap w !! self = Some ∅ ->
  let w' := run cs w in
  (raises (apply self name value w')
   <-> existsb (registers self name) cs = false)
  /\ (existsb (registers self name) cs = false ->
      apply self name value w' = (Raise NotImplementedError, w'))
  /\ (existsb (registers self name) cs = true ->
      apply self name value w'
      = (Ok tt, set_broker (broker w' ++ [TaskProcessCb name value]) w'))
  /\ log (after (apply self name value w')) = log w'.
Proof.
  intros Hself w'.
  destruct (run_registry cs w self ∅ Hself) as (r' & Hr' & Hreg).
  fold w' in Hr'. specialize (Hreg name).
  assert (Hnone : existsb (registers self name) cs = false ->
                  apply self name value w' = (Raise NotImplementedError, w')).
  { intros Hex. apply (apply_unregistered w' self r'); [exact Hr'|].
    apply eq_None_not_Some. intros Hs. apply Hreg in Hs.
    destruct Hs as [Hs|Hs]; [|congruence].
    rewrite lookup_empty in Hs. destruct Hs; discriminate. }
  assert (Hsome : existsb (registers self name) cs = true ->
                  apply self name value w'
                  = (Ok tt,
                     set_broker (broker w' ++ [TaskProcessCb name value]) w')).
  { intros Hex. destruct (proj2 Hreg (or_intror Hex)) as [cb Hcb].
    apply (apply_registered w' self r' name cb); assumption. }
  split; [|split; [exact Hnone | split; [exact Hsome|]]].
  - split.
    + intros [e He]. destruct (existsb (registers self name) cs) eqn:Hex;
        [|reflexivity].
      rewrite (Hsome eq_refl) in He. discriminate He.
    + intros Hex. exists NotImplementedError. rewrite (Hnone Hex). reflexivity.
  - destruct (existsb (registers self name) cs) eqn:Hex.
    + rewrite (Hsome eq_refl). reflexivity.
    + rewrite (Hnone eq_refl). reflexivity.
Qed.

Lemma apply_raises_iff_never_registered_witness :
  apply buf "flush" (VInt 3)
    (run [CRegisterCb buf "flush" cb_flush; CApply buf "flush" (VInt 1)]
         world_new)
  = (Ok tt,
     set_broker [TaskProcessCb "flush" (VInt 1); TaskProcessCb "flush" (VInt 3)]
       world_reg)
  /\ apply buf "stats" (VInt 3)
       (run [CRegisterCb buf "flush" cb_flush] world_new)
     = (Raise NotImplementedError, world_reg).
Proof.
  split.
  - apply (apply_raises_iff_never_registered world_new buf
             [CRegisterCb buf "flush" cb_flush; CApply buf "flush" (VInt 1)]
             "flush" (VInt 3) eq_refl).
    reflexivity.
  - apply (apply_raises_iff_never_registered world_new buf
             [CRegisterCb buf "flush" cb_flush] "stats" (VInt 3) eq_refl).
    reflexivity.
Defined.

(** ** [process_cb] *)

(** C3: [process_cb(name, value)] looks [name] up in the registry of its
    instance.  When a callback is registered under [name] it is called once,
    with [value], and [process_cb] ends as the callback does; when none is,
    [process_cb] raises [NotImplementedError] and calls nothing (the world is
    as it was). *)
Theorem process_cb_calls_registered w self r name value :
  heap w !! self = Some r ->
  (forall cb, r !! name = Some cb ->
     process_cb self name value w
     = (match cb_body cb value with None => Ok tt | Some e => Raise e end,
        emit (EvCalled cb value) w))
  /\ (r !! name = None ->
      process_cb self name value w = (Raise NotImplementedError, w)).
Proof.
  intros Hself. split.
  - intros cb Hcb. apply (process_cb_registered w self r); assumption.
  - intros Hnone. apply (process_cb_unregistered w self r); assumption.
Qed.

Lemma process_cb_calls_registered_witness :
  process_cb buf "flush" (VInt 3) world_reg
  = (Ok tt, emit (EvCalled cb_flush (VInt 3)) world_reg)
  /\ process_cb buf "stats" (VInt 3) world_reg
     = (Raise NotImplementedError, world_reg).
Proof.
  split.
  - refine (proj1 (process_cb_calls_registered world_reg buf
                     {[ "flush" := cb_flush ]} "flush" (VInt 3) _)
              cb_flush _); reflexivity.
  - refine (proj2 (process_cb_calls_registered world_reg buf
                     {[ "flush" := cb_flush ]} "stats" (VInt 3) _) _);
      reflexivity.
Defined.

(** ** [process_incr] and the backing store *)

Lemma written_created w model columns filters extra :
  is_created w model filters = true ->
  written w model columns filters extra
  = table w model ++ [new_row (update_kwargs columns extra) filters].
Proof. intros H. unfold written. rewrite H. reflexivity. Qed.

Lemma written_updated w model columns filters extra :
  is_created w model filters = false ->
  written w model columns filters extra
  = map (fun r => if matches filters r
                  then apply_values (update_kwargs columns extra) r else r)
        (table w model).
Proof. intros H. unfold written. rewrite H. reflexivity. Qed.

(** C4, as stated, fails: with [columns = {'times_seen': 1}] and
    [extra = {'times_seen': 100}] the record that matches the filters does
    not have its listed column grown by the delta (it reads 100, not 6). *)
Lemma process_incr_overlap_not_incremented :
  let w' := after (process_incr buf "Group" seen_once (by_pk 7)
                     (Some seen_100) world_new) in
  exists r r',
    table world_new "Group" !! 0%nat = Some r
    /\ matches (by_pk 7) r = true
    /\ table w' "Group" !! 0%nat = Some r'
    /\ r' !! "times_seen" = Some (VInt 100)
    /\ ~ row_incremented seen_once r r'.
Proof.
  exists group_row, (apply_values (update_kwargs seen_once (Some seen_100)) group_row).
  repeat split; try reflexivity.
  intros H. specialize (H "times_seen" 1 eq_refl).
  vm_compute in H. discriminate H.
Qed.

(** C4 (amended): with the store reachable and no key 'values' among the
    filters, [process_incr] issues one
    increment-or-create request against the backing store and returns.  If
    no record of the model matches the filters, one record is created and
    the created flag is true; its fields are the overwrites of [extra], else
    the increment values of the listed columns as initial values, else the
    filter values.  If records match, the created flag is false, and in each
    of them every listed column that [extra] does not also name is
    incremented by its delta, every field of [extra] is overwritten (a listed
    column that [extra] names is set, not incremented), and every other
    field is kept; records that do not match, and other models, are
    untouched. *)
Theorem process_incr_increment_or_create w self model columns filters extra :
  db_online w = true -> filters !! "values" = None ->
  let res := process_incr self model columns filters extra w in
  let w' := after res in
  outcome res = Ok tt
  /\ log w' = log w ++ [EvStoreCall model (update_kwargs columns extra) filters;
                        completion w model columns filters extra]
  /\ p_created (completion_payload w model columns filters extra)
     = is_created w model filters
  /\ (is_created w model filters = true
      <-> forall r, r ∈ table w model -> matches filters r = false)
  /\ (is_created w model filters = true ->
      exists r', table w' model = table w model ++ [r']
                 /\ row_created columns extra filters r')
  /\ (is_created w model filters = false ->
      length (table w' model) = length (table w model)
      /\ forall i r, table w model !! i = Some r ->
           exists r', table w' model !! i = Some r'
             /\ (matches filters r = true -> row_updated columns extra r r')
             /\ (matches filters r = false -> r' = r))
  /\ (forall m, m <> model -> table w' m = table w m).
Proof.
  intros Hon Hv res w'. subst w' res.
  rewrite (process_incr_online _ _ _ _ _ _ Hon Hv). unfold outcome, after; simpl.
  assert (Htab : forall m,
            table (set_log
                     (log w ++ [EvStoreCall model (update_kwargs columns extra) filters;
                                completion w model columns filters extra])
                     (set_db (<[model := written w model columns filters extra]> (db w)) w)) m
            = if decide (model = m)
              then written w model columns filters extra else table w m).
  { intros m. apply (table_set_db w model _ m). }
  split; [reflexivity|]. split; [reflexivity|]. split; [reflexivity|].
  split; [apply is_created_true_iff|]. split; [|split].
  - intros Hc. exists (new_row (update_kwargs columns extra) filters).
    split; [|apply row_created_new_row].
    rewrite Htab, decide_True by reflexivity. apply written_created. exact Hc.
  - intros Hc. rewrite Htab, decide_True by reflexivity.
    rewrite (written_updated _ _ _ _ _ Hc). split; [apply length_map|].
    intros i r Hr. rewrite list_lookup_fmap, Hr. simpl.
    eexists; split; [reflexivity|]. split; intros Hm; rewrite Hm.
    + apply row_updated_apply_values.
    + reflexivity.
  - intros m Hm. rewrite Htab, decide_False by congruence. reflexivity.
Qed.

Lemma process_incr_increment_or_create_witness :
  (exists r',
     table (after (process_incr buf "Group" seen_once (by_pk 7) None world_new))
           "Group" !! 0%nat = Some r'
     /\ r' !! "times_seen" = Some (VInt 6))
  /\ (exists r',
        table (after (process_incr buf "Group" seen_once (by_pk 8)
                        (Some seen_100) world_new)) "Group"
        = [group_row; r']
        /\ r' !! "times_seen" = Some (VInt 100)
        /\ r' !! "pk" = Some (VInt 8)).
Proof.
  split.
  - destruct (process_incr_increment_or_create world_new buf "Group" seen_once
                (by_pk 7) None) as (_ & _ & _ & _ & _ & Hupd & _);
      [reflexivity | reflexivity |].
    destruct Hupd as (_ & Hrows); [reflexivity|].
    destruct (Hrows 0%nat group_row) as (r' & Hr' & Hu & _); [reflexivity|].
    exists r'. split; [exact Hr'|].
    rewrite Hu by reflexivity. reflexivity.
  - destruct (process_incr_increment_or_create world_new buf "Group" seen_once
                (by_pk 8) (Some seen_100)) as (_ & _ & _ & _ & Hnew & _);
      [reflexivity | reflexivity |].
    destruct Hnew as (r' & Hr' & Hc); [reflexivity|].
    exists r'. split; [exact Hr'|].
    split; rewrite Hc; reflexivity.
Defined.

(** ** The completion event *)

Lemma signals_app l1 l2 : signals (l1 ++ l2) = (signals l1 + signals l2)%nat.
Proof. unfold signals. rewrite List.filter_app. apply length_app. Qed.

(** When the call reaches the store and the store write fails, the
    failure reaches the caller and no completion event is emitted. *)
Lemma process_incr_store_failure w self model columns filters extra :
  db_online w = false -> filters !! "values" = None ->
  let res := process_incr self model columns filters extra w in
  outcome res = Raise OperationalError
  /\ signals (log (after res)) = signals (log w)
  /\ db (after res) = db w.
Proof.
  intros Hoff Hv res. subst res.
  rewrite (process_incr_offline _ _ _ _ _ _ Hoff Hv).
  unfold outcome, after, emit; simpl. split; [reflexivity|]. split; [|reflexivity].
  rewrite signals_app. unfold signals; simpl. lia.
Qed.

(** C5: after every successful store write of [process_incr] (the store is
    reachable and the call reaches it, no filter being named 'values'),
    exactly one completion event is emitted; it carries the model, the columns, the
    filters, the extra fields and the created flag (with the model as
    sender).  Delivery is robust: whatever the subscribers do, [process_incr]
    returns normally, and every subscriber gets the event and has its own
    outcome, raised or returned, recorded in its own response. *)
Theorem process_incr_emits_one_completion w self model columns filters extra :
  db_online w = true -> filters !! "values" = None ->
  let res := process_incr self model columns filters extra w in
  let p := mkPayload model columns filters extra
             (is_created w model filters) model in
  outcome res = Ok tt
  /\ (exists responses,
        log (after res)
        = log w ++ [EvStoreCall model (update_kwargs columns extra) filters;
                    EvSignal p responses]
        /\ length responses = length (receivers w)
        /\ forall i r, receivers w !! i = Some r ->
             responses !! i = Some (recv_name r, recv_body r p))
  /\ signals (log (after res)) = S (signals (log w)).
Proof.
  intros Hon Hv res p. subst res.
  rewrite (process_incr_online _ _ _ _ _ _ Hon Hv). unfold outcome, after; simpl.
  split; [reflexivity|]. split.
  - exists (map (fun r => (recv_name r, recv_body r p)) (receivers w)).
    split; [reflexivity|]. split; [apply length_map|].
    intros i r Hr. rewrite list_lookup_fmap, Hr. reflexivity.
  - rewrite signals_app. unfold signals; simpl. lia.
Qed.

Lemma process_incr_emits_one_completion_witness :
  outcome (process_incr buf "Group" seen_once (by_pk 7) None world_new) = Ok tt
  /\ signals (log (after (process_incr buf "Group" seen_once (by_pk 7) None
                            world_new))) = 1%nat
  /\ exists responses,
       log (after (process_incr buf "Group" seen_once (by_pk 7) None world_new))
       = [EvStoreCall "Group" (update_kwargs seen_once None) (by_pk 7);
          EvSignal (mkPayload "Group" seen_once (by_pk 7) None false "Group")
                   responses]
       /\ responses !! 0%nat = Some ("bad", Raised "oops")
       /\ responses !! 1%nat = Some ("good", Returned).
Proof.
  destruct (process_incr_emits_one_completion world_new buf "Group" seen_once
              (by_pk 7) None) as (Hok & (responses & Hlog & _ & Hresp) & Hone);
    [reflexivity | reflexivity |].
  split; [exact Hok|]. split; [exact Hone|].
  exists responses. split; [exact Hlog|]. split.
  - apply (Hresp 0%nat recv_bad). reflexivity.
  - apply (Hresp 1%nat recv_good). reflexivity.
Defined.

(** ** The deprecated entry point *)

(** C6: [process(model, columns, filters, extra)] warns and then runs
    [process_incr] with the same arguments: it ends as [process_incr] does,
    leaves the Buffer instances, the broker, the store and the subscribers
    as [process_incr] does, and logs the same events, preceded by one
    [DeprecationWarning]. *)
Theorem process_is_process_incr_with_warning w self model columns filters extra :
  let old := process self model columns filters extra w in
  let new := process_incr self model columns filters extra w in
  old = process_incr self model columns filters extra
          (emit (EvWarn deprecation_message "DeprecationWarning") w)
  /\ outcome old = outcome new
  /\ heap (after old) = heap (after new)
  /\ broker (after old) = broker (after new)
  /\ db (after old) = db (after new)
  /\ db_online (after old) = db_online (after new)
  /\ receivers (after old) = receivers (after new)
  /\ exists evs,
       log (after new) = log w ++ evs
       /\ log (after old)
          = log w ++ EvWarn deprecation_message "DeprecationWarning" :: evs.
Proof.
  intros old new.
  assert (Hfwd : old = process_incr self model columns filters extra
                         (emit (EvWarn deprecation_message "DeprecationWarning") w))
    by reflexivity.
  split; [exact Hfwd|]. rewrite Hfwd. subst new. clear Hfwd old.
  set (ww := emit (EvWarn deprecation_message "DeprecationWarning") w).
  destruct (filters !! "values") as [v|] eqn:Hv.
  { rewrite (process_incr_duplicate_keyword ww _ _ _ _ _ v Hv).
    rewrite (process_incr_duplicate_keyword w _ _ _ _ _ v Hv).
    unfold outcome, after; simpl. repeat split.
    exists []. split; [symmetry; apply app_nil_r | reflexivity]. }
  destruct (db_online w) eqn:Hon.
  - rewrite (process_incr_online ww _ _ _ _ _ Hon Hv).
    rewrite (process_incr_online w _ _ _ _ _ Hon Hv).
    unfold outcome, after; simpl. repeat split.
    eexists. split; [reflexivity|].
    rewrite <- app_assoc. reflexivity.
  - rewrite (process_incr_offline ww _ _ _ _ _ Hon Hv).
    rewrite (process_incr_offline w _ _ _ _ _ Hon Hv).
    unfold outcome, after; simpl. repeat split.
    eexists. split; [reflexivity|].
    rewrite <- app_assoc. reflexivity.
Qed.

(** ** [incr] and the drains *)

(** A worker that receives the task [incr] submitted runs [process_incr]
    with the arguments of the [incr] call. *)
Lemma run_task_of_incr self model columns filters extra :
  run_task self (TaskProcessIncr model columns filters extra)
  = process_incr self model columns filters extra.
Proof. reflexivity. Qed.

(** C7: in the default Buffer every call to [incr] triggers the apply path
    inside the call, with no buffering: [incr] is one dispatch of the
    [process_incr] task with the arguments of the call, made unconditionally
    before [incr] returns; the task dispatched is the one that runs
    [process_incr] with those arguments; exactly one task is dispatched per
    call, and nothing is retained in a pending store: both drains are empty
    right after the call and leave the world as it is. *)
Theorem incr_dispatches_at_the_call w self model columns filters extra :
  let res := incr self model columns filters extra w in
  res = apply_async (TaskProcessIncr model columns filters extra) w
  /\ outcome res = Ok tt
  /\ broker (after res)
     = broker w ++ [TaskProcessIncr model columns filters extra]
  /\ length (broker (after res)) = S (length (broker w))
  /\ run_task self (TaskProcessIncr model columns filters extra)
     = process_incr self model columns filters extra
  /\ process_pending_incr self (after res) = (Ok [], after res)
  /\ process_pending_cb self (after res) = (Ok [], after res)
  /\ process_pending self (after res) = (Ok tt, after res).
Proof.
  intros res. subst res. unfold incr, apply_async, modify, outcome, after; simpl.
  repeat split. rewrite length_app. simpl. lia.
Qed.

(** C8: in the default Buffer, [process_pending_incr] and
    [process_pending_cb] return an empty batch and change nothing, in any
    world, whatever calls led to it; so after one drain a second drain with
    no call in between returns an empty batch again, and both drains leave
    the world, which holds nothing pending, as it was. *)
Theorem drain_is_idempotent w self cs :
  let w0 := run cs w in
  let w1 := after (process_pending self w0) in
  process_pending_incr self w0 = (Ok [], w0)
  /\ process_pending_cb self w0 = (Ok [], w0)
  /\ process_pending self w0 = (Ok tt, w0)
  /\ w1 = w0
  /\ process_pending_incr self w1 = (Ok [], w1)
  /\ process_pending_cb self w1 = (Ok [], w1)
  /\ process_pending self w1 = (Ok tt, w1).
Proof.
  intros w0 w1. subst w1. repeat split.
Qed.

(** ** Overwrites win over increments *)

(** C9: when [extra] holds a key that is also a key of [columns], the
    update that [process_incr] sends to the backing store holds, for that
    key, the value of [extra] and not the increment expression [F(c) + v]
    that the same call without [extra] would send; this is the update of
    the request whenever the call reaches the store (no filter is named
    'values'). *)
Theorem extra_replaces_increment w self model columns filters e c d x :
  columns !! c = Some d -> e !! c = Some x ->
  update_kwargs columns (Some e) !! c = Some (Lit x)
  /\ update_kwargs columns None !! c = Some (FAdd c d)
  /\ (filters !! "values" = None ->
      exists evs,
        log (after (process_incr self model columns filters (Some e) w))
        = log w ++ EvStoreCall model (update_kwargs columns (Some e)) filters
                   :: evs).
Proof.
  intros Hc He. split; [|split].
  - rewrite update_kwargs_lookup. unfold overrides; simpl. rewrite He.
    reflexivity.
  - rewrite update_kwargs_lookup. unfold overrides; simpl. rewrite Hc.
    reflexivity.
  - intros Hv. destruct (db_online w) eqn:Hon.
    + rewrite (process_incr_online _ _ _ _ _ _ Hon Hv). unfold after; simpl.
      eexists. reflexivity.
    + rewrite (process_incr_offline _ _ _ _ _ _ Hon Hv). unfold after; simpl.
      exists []. reflexivity.
Qed.

Lemma extra_replaces_increment_witness :
  update_kwargs seen_once (Some seen_100) !! "times_seen"
  = Some (Lit (VInt 100))
  /\ update_kwargs seen_once None !! "times_seen"
     = Some (FAdd "times_seen" 1)
  /\ exists evs,
       log (after (process_incr buf "Group" seen_once (by_pk 7) (Some seen_100)
                     world_new))
       = log world_new
         ++ EvStoreCall "Group" (update_kwargs seen_once (Some seen_100))
              (by_pk 7) :: evs.
Proof.
  destruct (extra_replaces_increment world_new buf "Group" seen_once (by_pk 7)
              seen_100 "times_seen" 1 (VInt 100)) as (H1 & H2 & H3);
    [reflexivity | reflexivity |].
  split; [exact H1|]. split; [exact H2|]. apply H3. reflexivity.
Defined.

(** ** The registry belongs to the instance *)

(** C10, as stated, fails: [process_cb] calls code of the caller's, and a
    callback whose body calls [register_cb] leaves the registry changed when
    [process_cb] returns. *)
Lemma process_cb_callback_changes_registry :
  ~ process_cb_keeps_registry code_registering world_reg buf "flush" (VInt 1).
Proof.
  unfold process_cb_keeps_registry. intros H.
  assert (Hnew : heap (after (process_cb_with code_registering buf "flush"
                                (VInt 1) world_reg)) !! buf
                 ≫= (fun r => cb_name <$> r !! "stats") = Some "boom")
    by reflexivity.
  rewrite H in Hnew. vm_compute in Hnew. discriminate Hnew.
Qed.

Lemma process_cb_with_registry code w self name value :
  heap (after (process_cb_with code self name value w))
  = match heap w !! self ≫= (fun r => r !! name) with
    | Some cb => heap (run (code cb value) (emit (EvCalled cb value) w))
    | None => heap w
    end.
Proof.
  unfold process_cb_with, call_with, bind, try_except, get_registry,
    dict_getitem, modify, ret, raise, after.
  destruct (heap w !! self) as [r|] eqn:Hself; simpl; [|reflexivity].
  destruct (r !! name) as [cb|] eqn:Hname; simpl; [|reflexivity].
  destruct (cb_body cb value); reflexivity.
Qed.

(** C10 (amended): a newly constructed Buffer has an empty registry of its
    own, at a place no earlier instance occupies, and constructing it
    changes no other registry; [register_cb] changes the registry of no
    instance but the one it is called on, and nothing outside the
    registries; [incr], [apply], [process_incr], [process_pending] and
    [process] leave every registry unchanged.  [process_cb] itself assigns
    to no registry: it leaves every registry unchanged when the callback it
    calls makes no call on a buffer (and when it raises for an unknown
    name), and otherwise the registries after [process_cb] are what the
    callback's own calls made of them. *)
Theorem registry_is_per_instance w :
  (exists self,
     outcome (Buffer_new w) = Ok self
     /\ heap w !! self = None
     /\ heap (after (Buffer_new w)) !! self = Some ∅
     /\ forall other, other <> self ->
          heap (after (Buffer_new w)) !! other = heap w !! other)
  /\ (forall self name cb other, other <> self ->
        heap (after (register_cb self name cb w)) !! other = heap w !! other)
  /\ (forall self name cb,
        broker (after (register_cb self name cb w)) = broker w
        /\ db (after (register_cb self name cb w)) = db w
        /\ log (after (register_cb self name cb w)) = log w)
  /\ (forall self model columns filters extra,
        heap (after (incr self model columns filters extra w)) = heap w)
  /\ (forall self name value,
        heap (after (apply self name value w)) = heap w)
  /\ (forall self model columns filters extra,
        heap (after (process_incr self model columns filters extra w)) = heap w)
  /\ (forall self name value,
        heap (after (process_cb self name value w)) = heap w)
  /\ (forall self, heap (after (process_pending self w)) = heap w)
  /\ (forall self model columns filters extra,
        heap (after (process self model columns filters extra w)) = heap w)
  /\ (forall code self name value,
        heap (after (process_cb_with code self name value w))
        = match heap w !! self ≫= (fun r => r !! name) with
          | Some cb => heap (run (code cb value) (emit (EvCalled cb value) w))
          | None => heap w
          end)
  /\ (forall code self name value,
        (forall cb, code cb value = []) ->
        process_cb_with code self name value w = process_cb self name value w).
Proof.
  split; [|split].
  - exists (fresh (dom (heap w))). split; [reflexivity|].
    split; [apply Buffer_new_fresh|]. unfold Buffer_new, after; simpl. split.
    + apply lookup_insert_eq.
    + intros other Hne. apply lookup_insert_ne. congruence.
  - intros self name cb other Hne.
    destruct (heap w !! self) as [r|] eqn:Hself.
    + rewrite (register_cb_live _ _ _ _ _ Hself). unfold after; simpl.
      apply lookup_insert_ne. congruence.
    + rewrite (register_cb_no_attribute _ _ _ _ Hself). reflexivity.
  - split.
    { intros self name cb. destruct (heap w !! self) as [r|] eqn:Hself.
      - rewrite (register_cb_live _ _ _ _ _ Hself). repeat split.
      - rewrite (register_cb_no_attribute _ _ _ _ Hself). repeat split. }
    split; [intros; apply keeps_heap_incr|].
    split; [intros; apply keeps_heap_apply|].
    split; [intros; apply keeps_heap_process_incr|].
    split; [intros; apply keeps_heap_process_cb|].
    split; [intros; apply keeps_heap_process_pending|].
    split; [intros; apply keeps_heap_process|].
    split; [intros; apply process_cb_with_registry|].
    intros code self name value Hnil.
    unfold process_cb_with, process_cb, call_with, call, bind, try_except,
      get_registry, dict_getitem, modify, ret, raise.
    destruct (heap w !! self) as [r|]; simpl; [|reflexivity].
    destruct (r !! name) as [cb|]; simpl; [|reflexivity].
    rewrite Hnil. reflexivity.
Qed.

Lemma registry_is_per_instance_witness :
  heap (after (register_cb 1%nat "flush" cb_boom
                 (after (Buffer_new world_reg)))) !! buf
  = Some {[ "flush" := cb_flush ]}
  /\ process_cb_with (fun _ _ => []) buf "flush" (VInt 1) world_reg
     = process_cb buf "flush" (VInt 1) world_reg.
Proof.
  split.
  - destruct (registry_is_per_instance (after (Buffer_new world_reg)))
      as (_ & Hreg & _).
    rewrite (Hreg 1%nat "flush" cb_boom buf) by (unfold buf; lia).
    reflexivity.
  - destruct (registry_is_per_instance world_reg)
      as (_ & _ & _ & _ & _ & _ & _ & _ & _ & _ & Hnil).
    apply Hnil. reflexivity.
Defined.

(** * Further properties *)

(** ** The logger of a buffer class *)

Lemma lower_ascii_not_upper a : is_upper (lower_ascii a) = false.
Proof. destruct a as [[] [] [] [] [] [] [] []]; reflexivity. Qed.

Lemma lower_ascii_idem a : lower_ascii (lower_ascii a) = lower_ascii a.
Proof. destruct a as [[] [] [] [] [] [] [] []]; reflexivity. Qed.

Lemma lower_no_upper s : all_chars (fun a => negb (is_upper a)) (lower s) = true.
Proof.
  induction s as [|a s IH]; simpl; [reflexivity|].
  rewrite lower_ascii_not_upper, IH. reflexivity.
Qed.

Lemma lower_idem s : lower (lower s) = lower s.
Proof.
  induction s as [|a s IH]; simpl; [reflexivity|].
  rewrite lower_ascii_idem, IH. reflexivity.
Qed.

Lemma lower_length s : String.length (lower s) = String.length s.
Proof.
  induction s as [|a s IH]; simpl; [reflexivity | rewrite IH; reflexivity].
Qed.

Lemma all_chars_append p s1 s2 :
  all_chars p (String.append s1 s2) = all_chars p s1 && all_chars p s2.
Proof.
  induction s1 as [|a s1 IH]; simpl; [reflexivity|].
  rewrite IH. apply andb_assoc.
Qed.

Lemma append_length s1 s2 :
  String.length (String.append s1 s2)
  = (String.length s1 + String.length s2)%nat.
Proof.
  induction s1 as [|a s1 IH]; simpl; [reflexivity | rewrite IH; reflexivity].
Qed.

Lemma append_inj_r s t1 t2 :
  String.append s t1 = String.append s t2 -> t1 = t2.
Proof.
  induction s as [|a s IH]; simpl; intros H; [exact H|].
  injection H as H. apply IH. exact H.
Qed.

Lemma lower_ascii_is_ascii a :
  is_ascii a = true -> is_ascii (lower_ascii a) = true.
Proof. destruct a as [[] [] [] [] [] [] [] []]; vm_compute; auto. Qed.

Lemma lower_is_ascii s :
  all_chars is_ascii s = true -> all_chars is_ascii (lower s) = true.
Proof.
  induction s as [|a s IH]; simpl; [reflexivity|].
  intros H. apply andb_true_iff in H. destruct H as [Ha Hs].
  rewrite (lower_ascii_is_ascii a Ha), (IH Hs). reflexivity.
Qed.

Lemma BufferMount_new_ascii name :
  all_chars is_ascii name = true ->
  BufferMount_new name
  = Some (mkBufferClass name (String.append "sentry.buffer." (lower name))).
Proof. intros H. unfold BufferMount_new, str_lower. rewrite H. reflexivity. Qed.

(** For a class name made of ASCII characters, the logger name that the
    metaclass gives the class never holds a capital letter: it is
    'sentry.buffer.' followed by the class name with A to Z lowered, 14
    characters longer than the class name; the class keeps its own name. *)
Theorem buffer_logger_is_lowercase name :
  all_chars is_ascii name = true ->
  exists cls,
    BufferMount_new name = Some cls
    /\ cls_name cls = name
    /\ cls_logger cls = String.append "sentry.buffer." (lower name)
    /\ all_chars (fun a => negb (is_upper a)) (cls_logger cls) = true
    /\ String.length (cls_logger cls) = (14 + String.length name)%nat.
Proof.
  intros Hascii. eexists. split; [apply BufferMount_new_ascii, Hascii|].
  cbn [cls_name cls_logger].
  split; [reflexivity|]. split; [reflexivity|]. split.
  - rewrite all_chars_append, lower_no_upper. reflexivity.
  - rewrite append_length, lower_length. reflexivity.
Qed.

Lemma buffer_logger_is_lowercase_witness :
  exists cls,
    BufferMount_new "RedisBuffer" = Some cls
    /\ cls_logger cls = "sentry.buffer.redisbuffer".
Proof.
  destruct (buffer_logger_is_lowercase "RedisBuffer") as (cls & Hnew & _ & Hlog & _);
    [reflexivity|].
  exists cls. split; [exact Hnew | exact Hlog].
Defined.

(** Two buffer classes with ASCII names get the same logger exactly when
    their names are equal up to the case of the letters A to Z; in
    particular a class and the class named by its lowered name share one. *)
Theorem buffer_logger_shared_iff_same_lowered_name n1 n2 :
  all_chars is_ascii n1 = true -> all_chars is_ascii n2 = true ->
  exists c1 c2 c1',
    BufferMount_new n1 = Some c1
    /\ BufferMount_new n2 = Some c2
    /\ BufferMount_new (lower n1) = Some c1'
    /\ (cls_logger c1 = cls_logger c2 <-> lower n1 = lower n2)
    /\ cls_logger c1' = cls_logger c1.
Proof.
  intros H1 H2. do 3 eexists.
  split; [apply BufferMount_new_ascii, H1|].
  split; [apply BufferMount_new_ascii, H2|].
  split; [apply BufferMount_new_ascii, lower_is_ascii, H1|].
  cbn [cls_logger]. split.
  - split.
    + apply append_inj_r.
    + intros H. rewrite H. reflexivity.
  - rewrite lower_idem. reflexivity.
Qed.

Lemma buffer_logger_shared_iff_same_lowered_name_witness :
  exists c1 c2,
    BufferMount_new "RedisBuffer" = Some c1
    /\ BufferMount_new "redisBUFFER" = Some c2
    /\ cls_logger c1 = cls_logger c2.
Proof.
  destruct (buffer_logger_shared_iff_same_lowered_name "RedisBuffer"
              "redisBUFFER") as (c1 & c2 & _ & Hc1 & Hc2 & _ & Hiff & _);
    [reflexivity | reflexivity |].
  exists c1, c2. split; [exact Hc1|]. split; [exact Hc2|].
  apply Hiff. reflexivity.
Defined.

(** ** Which callback a name stands for *)

Lemma exec_registry_lookup c w self r :
  heap w !! self = Some r ->
  exists r1, heap (exec c w) !! self = Some r1 /\
    forall name, r1 !! name = match registered_by self name c with
                              | Some cb => Some cb
                              | None => r !! name
                              end.
Proof.
  intros H.
  assert (Hsame : forall w', heap w' = heap w ->
    exists r1, heap w' !! self = Some r1 /\ forall name : string, r1 !! name = r !! name).
  { intros w' Hw'. exists r. rewrite Hw'. split; [exact H | reflexivity]. }
  destruct c as [|s n cb|s n v|s m c f e|s|s|s m c f e|s n v|s m c f e];
    cbn [exec registered_by].
  - exists r. split; [|reflexivity].
    unfold Buffer_new, after; simpl. rewrite lookup_insert_ne; [exact H|].
    intros Heq. pose proof (Buffer_new_fresh w) as Hf. rewrite Heq in Hf.
    congruence.
  - destruct (heap w !! s) as [rs|] eqn:Hs.
    + rewrite (register_cb_live _ _ _ _ _ Hs). unfold after; simpl.
      destruct (decide (s = self)) as [->|Hne].
      * rewrite lookup_insert_eq. eexists; split; [reflexivity|].
        assert (rs = r) as -> by congruence.
        intros name. rewrite bool_decide_eq_true_2 by reflexivity. simpl.
        destruct (decide (n = name)) as [->|Hn].
        -- rewrite lookup_insert_eq, bool_decide_eq_true_2 by reflexivity.
           reflexivity.
        -- rewrite lookup_insert_ne by exact Hn.
           rewrite bool_decide_eq_false_2 by exact Hn. reflexivity.
      * rewrite lookup_insert_ne by exact Hne. exists r. split; [exact H|].
        intros name. rewrite bool_decide_eq_false_2 by exact Hne. reflexivity.
    + rewrite (register_cb_no_attribute _ _ _ _ Hs). unfold after; simpl.
      exists r. split; [exact H|]. intros name.
      rewrite bool_decide_eq_false_2 by congruence. reflexivity.
  - apply Hsame. apply keeps_heap_apply.
  - apply Hsame. apply keeps_heap_incr.
  - apply Hsame. apply keeps_heap_validate.
  - apply Hsame. apply keeps_heap_process_pending.
  - apply Hsame. apply keeps_heap_process_incr.
  - apply Hsame. apply keeps_heap_process_cb.
  - apply Hsame. apply keeps_heap_process.
Qed.

Lemma run_registry_lookup cs : forall w self r,
  heap w !! self = Some r ->
  exists r', heap (run cs w) !! self = Some r' /\
    forall name, r' !! name = match last_registered self name cs with
                              | Some cb => Some cb
                              | None => r !! name
                              end.
Proof.
  induction cs as [|c cs IH]; intros w self r H; simpl.
  - exists r. split; [exact H | reflexivity].
  - destruct (exec_registry_lookup c w self r H) as (r1 & H1 & Hc).
    destruct (IH (exec c w) self r1 H1) as (r2 & H2 & Hcs).
    exists r2. split; [exact H2|]. intros name. rewrite Hcs.
    destruct (last_registered self name cs); [reflexivity | apply Hc].
Qed.

(** After any sequence of calls on a live instance, [process_cb(name,
    value)] calls the callback of the last [register_cb] made for [name] on
    that instance; earlier registrations of the name, registrations of other
    names and registrations on other instances do not count.  With no
    registration in the sequence the name stands for what it stood for
    before. *)
Theorem process_cb_dispatches_latest_registration w self r cs name value :
  heap w !! self = Some r ->
  let w' := run cs w in
  (forall cb, last_registered self name cs = Some cb ->
     process_cb self name value w'
     = (match cb_body cb value with None => Ok tt | Some e => Raise e end,
        emit (EvCalled cb value) w'))
  /\ (last_registered self name cs = None ->
      process_cb self name value w'
      = match r !! name with
        | Some cb =>
            (match cb_body cb value with None => Ok tt | Some e => Raise e end,
             emit (EvCalled cb value) w')
        | None => (Raise NotImplementedError, w')
        end).
Proof.
  intros Hself w'.
  destruct (run_registry_lookup cs w self r Hself) as (r' & Hr' & Hlook).
  fold w' in Hr'. specialize (Hlook name). split.
  - intros cb Hlast. rewrite Hlast in Hlook.
    apply (process_cb_registered w' self r'); assumption.
  - intros Hlast. rewrite Hlast in Hlook.
    destruct (r !! name) as [cb|] eqn:Hr.
    + apply (process_cb_registered w' self r'); assumption.
    + apply (process_cb_unregistered w' self r'); assumption.
Qed.

Lemma process_cb_dispatches_latest_registration_witness :
  process_cb buf "flush" (VInt 3)
    (run [CRegisterCb buf "flush" cb_boom; CRegisterCb 1%nat "flush" cb_boom;
          CRegisterCb buf "flush" cb_flush; CRegisterCb buf "stats" cb_boom]
         world_new)
  = (Ok tt,
     emit (EvCalled cb_flush (VInt 3))
       (run [CRegisterCb buf "flush" cb_boom; CRegisterCb 1%nat "flush" cb_boom;
             CRegisterCb buf "flush" cb_flush; CRegisterCb buf "stats" cb_boom]
            world_new)).
Proof.
  refine (proj1 (process_cb_dispatches_latest_registration world_new buf ∅
                   [CRegisterCb buf "flush" cb_boom;
                    CRegisterCb 1%nat "flush" cb_boom;
                    CRegisterCb buf "flush" cb_flush;
                    CRegisterCb buf "stats" cb_boom]
                   "flush" (VInt 3) _) cb_flush _); reflexivity.
Defined.

(** The registry has no way back: once a name is registered on an instance,
    no later sequence of calls makes [apply] raise for it; [apply] submits
    its task every time. *)
Theorem registered_name_stays_registered w self r name cb cs value :
  heap w !! self = Some r -> r !! name = Some cb ->
  let w' := run cs w in
  apply self name value w'
  = (Ok tt, set_broker (broker w' ++ [TaskProcessCb name value]) w').
Proof.
  intros Hself Hname w'.
  destruct (run_registry_lookup cs w self r Hself) as (r' & Hr' & Hlook).
  fold w' in Hr'. specialize (Hlook name).
  destruct (last_registered self name cs) as [cb'|].
  - apply (apply_registered w' self r' name cb'); assumption.
  - rewrite Hname in Hlook. apply (apply_registered w' self r' name cb); assumption.
Qed.

Lemma registered_name_stays_registered_witness :
  apply buf "flush" (VInt 3)
    (run [CProcessCb buf "flush" VNone; CRegisterCb buf "flush" cb_boom;
          CProcessPending buf; CNew] world_reg)
  = (Ok tt,
     set_broker [TaskProcessCb "flush" (VInt 3)]
       (run [CProcessCb buf "flush" VNone; CRegisterCb buf "flush" cb_boom;
             CProcessPending buf; CNew] world_reg)).
Proof.
  refine (registered_name_stays_registered world_reg buf
            {[ "flush" := cb_flush ]} "flush" cb_flush
            [CProcessCb buf "flush" VNone; CRegisterCb buf "flush" cb_boom;
             CProcessPending buf; CNew] (VInt 3) _ _); reflexivity.
Defined.

(** ** [apply] and [process_cb] agree *)

Lemma apply_no_attribute w self name value :
  heap w !! self = None ->
  apply self name value w = (Raise (AttributeError "registry"), w).
Proof.
  intros H. unfold apply, bind, get_registry. rewrite H. reflexivity.
Qed.

Lemma process_cb_no_attribute w self name value :
  heap w !! self = None ->
  process_cb self name value w = (Raise (AttributeError "registry"), w).
Proof.
  intros H. unfold process_cb, bind, try_except, get_registry. rewrite H.
  reflexivity.
Qed.

Lemma log_not_extended (l : list Event) e : l <> l ++ [e].
Proof.
  intros H. apply (f_equal length) in H. rewrite length_app in H.
  simpl in H. lia.
Qed.

(** [apply] accepts a name exactly when [process_cb] has a callback to call
    for it: in any world, [apply(name, _)] returns normally if and only if
    [process_cb(name, _)] calls a callback, and when [apply] raises,
    [process_cb] raises the same exception and calls nothing. *)
Theorem apply_accepts_what_process_cb_serves w self name value value' :
  (outcome (apply self name value w) = Ok tt
   <-> exists cb, log (after (process_cb self name value' w))
                  = log w ++ [EvCalled cb value'])
  /\ (forall e, outcome (apply self name value w) = Raise e ->
        process_cb self name value' w = (Raise e, w)).
Proof.
  destruct (heap w !! self) as [r|] eqn:Hself.
  - destruct (r !! name) as [cb|] eqn:Hname.
    + rewrite (apply_registered w self r name cb value Hself Hname).
      rewrite (process_cb_registered w self r name cb value' Hself Hname).
      unfold outcome, after; simpl. split.
      * split; [intros _; exists cb; reflexivity | reflexivity].
      * intros e He. discriminate He.
    + rewrite (apply_unregistered w self r name value Hself Hname).
      rewrite (process_cb_unregistered w self r name value' Hself Hname).
      unfold outcome, after; simpl. split.
      * split; [intros He; discriminate He|].
        intros [cb Hcb]. destruct (log_not_extended _ _ Hcb).
      * intros e He. injection He as <-. reflexivity.
  - rewrite (apply_no_attribute w self name value Hself).
    rewrite (process_cb_no_attribute w self name value' Hself).
    unfold outcome, after; simpl. split.
    + split; [intros He; discriminate He|].
      intros [cb Hcb]. destruct (log_not_extended _ _ Hcb).
    + intros e He. injection He as <-. reflexivity.
Qed.

Lemma apply_accepts_what_process_cb_serves_witness :
  process_cb buf "stats" (VInt 2) world_reg = (Raise NotImplementedError, world_reg).
Proof.
  apply (proj2 (apply_accepts_what_process_cb_serves world_reg buf "stats"
                  (VInt 1) (VInt 2)) NotImplementedError).
  reflexivity.
Defined.

(** On an instance whose [registry] attribute was never set, [register_cb],
    [apply] and [process_cb] raise [AttributeError] and change nothing; the
    handler of [process_cb] catches [KeyError] only and does not turn this
    into [NotImplementedError].  [incr] never reads the registry and still
    submits its task. *)
Theorem missing_registry_is_attribute_error w self name cb value model columns
    filters extra :
  heap w !! self = None ->
  register_cb self name cb w = (Raise (AttributeError "registry"), w)
  /\ apply self name value w = (Raise (AttributeError "registry"), w)
  /\ process_cb self name value w = (Raise (AttributeError "registry"), w)
  /\ incr self model columns filters extra w
     = (Ok tt,
        set_broker (broker w ++ [TaskProcessIncr model columns filters extra]) w).
Proof.
  intros H. split; [|split; [|split]].
  - apply register_cb_no_attribute. exact H.
  - apply apply_no_attribute. exact H.
  - apply process_cb_no_attribute. exact H.
  - reflexivity.
Qed.

Lemma missing_registry_is_attribute_error_witness :
  process_cb 5%nat "flush" (VInt 1) world_reg
  = (Raise (AttributeError "registry"), world_reg).
Proof.
  apply (missing_registry_is_attribute_error world_reg 5%nat "flush" cb_flush
           (VInt 1) "Group" seen_once (by_pk 7) None).
  reflexivity.
Defined.

(** ** What reaches the broker *)

Lemma broker_process_incr w self model columns filters extra :
  broker (after (process_incr self model columns filters extra w)) = broker w.
Proof.
  destruct (filters !! "values") as [v|] eqn:Hv.
  { rewrite (process_incr_duplicate_keyword _ _ _ _ _ _ v Hv). reflexivity. }
  destruct (db_online w) eqn:Hon.
  - rewrite (process_incr_online _ _ _ _ _ _ Hon Hv). reflexivity.
  - rewrite (process_incr_offline _ _ _ _ _ _ Hon Hv). reflexivity.
Qed.

Lemma broker_process_cb w self name value :
  broker (after (process_cb self name value w)) = broker w.
Proof.
  destruct (heap w !! self) as [r|] eqn:Hself.
  - destruct (r !! name) as [cb|] eqn:Hname.
    + rewrite (process_cb_registered w self r name cb value Hself Hname).
      reflexivity.
    + rewrite (process_cb_unregistered w self r name value Hself Hname).
      reflexivity.
  - rewrite (process_cb_no_attribute w self name value Hself). reflexivity.
Qed.

Lemma broker_register_cb w self name cb :
  broker (after (register_cb self name cb w)) = broker w.
Proof.
  destruct (heap w !! self) as [r|] eqn:Hself.
  - rewrite (register_cb_live _ _ _ _ _ Hself). reflexivity.
  - rewrite (register_cb_no_attribute _ _ _ _ Hself). reflexivity.
Qed.

Lemma exec_broker c w :
  exists ts, broker (exec c w) = broker w ++ ts
             /\ sublist ts (submits c)
             /\ (is_apply c = false -> ts = submits c).
Proof.
  assert (Hnone : forall w', broker w' = broker w ->
            exists ts, broker w' = broker w ++ ts
                       /\ sublist ts [] /\ (false = false -> ts = [])).
  { intros w' Hw'. exists []. rewrite Hw', app_nil_r.
    split; [reflexivity|]. split; [constructor | reflexivity]. }
  destruct c as [|s n cb|s n v|s m c f e|s|s|s m c f e|s n v|s m c f e];
    cbn [exec submits is_apply].
  - apply Hnone. reflexivity.
  - apply Hnone. apply broker_register_cb.
  - destruct (heap w !! s) as [r|] eqn:Hself.
    + destruct (r !! n) as [cb|] eqn:Hname.
      * rewrite (apply_registered w s r n cb v Hself Hname).
        exists [TaskProcessCb n v]. split; [reflexivity|].
        split; [reflexivity | discriminate].
      * rewrite (apply_unregistered w s r n v Hself Hname).
        exists []. unfold after; simpl. rewrite app_nil_r.
        split; [reflexivity|]. split; [apply sublist_nil_l | discriminate].
    + rewrite (apply_no_attribute w s n v Hself).
      exists []. unfold after; simpl. rewrite app_nil_r.
      split; [reflexivity|]. split; [apply sublist_nil_l | discriminate].
  - exists [TaskProcessIncr m c f e]. split; [reflexivity|].
    split; reflexivity.
  - apply Hnone. reflexivity.
  - apply Hnone. reflexivity.
  - apply Hnone. apply broker_process_incr.
  - apply Hnone. apply broker_process_cb.
  - apply Hnone. apply (broker_process_incr (emit _ w)).
Qed.

Lemma run_broker cs : forall w,
  exists ts, broker (run cs w) = broker w ++ ts
             /\ sublist ts (flat_map submits cs)
             /\ (forallb (fun c => negb (is_apply c)) cs = true ->
                 ts = flat_map submits cs).
Proof.
  induction cs as [|c cs IH]; intros w; simpl.
  - exists []. rewrite app_nil_r. split; [reflexivity|].
    split; reflexivity.
  - destruct (exec_broker c w) as (t1 & H1 & S1 & E1).
    destruct (IH (exec c w)) as (t2 & H2 & S2 & E2).
    exists (t1 ++ t2). split; [|split].
    + rewrite H2, H1, app_assoc. reflexivity.
    + apply sublist_app; assumption.
    + intros Hall. apply andb_true_iff in Hall. destruct Hall as [Hc Hcs].
      apply negb_true_iff in Hc. rewrite (E1 Hc), (E2 Hcs). reflexivity.
Qed.

(** The buffer only ever adds to the broker: after any sequence of calls
    the tasks that were there are still there, in place, followed by tasks
    of the [incr] and [apply] calls of the sequence in call order, at most
    one per call; no other method submits anything and nothing is submitted
    twice. *)
Theorem broker_is_append_only cs w :
  exists ts, broker (run cs w) = broker w ++ ts
             /\ sublist ts (flat_map submits cs).
Proof.
  destruct (run_broker cs w) as (ts & H & S & _). exists ts. split; assumption.
Qed.

(** The default buffer never merges increments: along a sequence without
    [apply], every [incr] call leaves its own task, with the arguments of
    that call, in call order, even when two calls name the same model and
    filters. *)
Theorem every_incr_leaves_its_own_task cs w :
  forallb (fun c => negb (is_apply c)) cs = true ->
  broker (run cs w) = broker w ++ flat_map submits cs.
Proof.
  intros Hall. destruct (run_broker cs w) as (ts & H & _ & E).
  rewrite H, (E Hall). reflexivity.
Qed.

Lemma every_incr_leaves_its_own_task_witness :
  broker (run [CIncr buf "Group" seen_once (by_pk 7) None;
               CProcessIncr buf "Group" seen_once (by_pk 7) None;
               CIncr buf "Group" seen_once (by_pk 7) None] world_new)
  = [TaskProcessIncr "Group" seen_once (by_pk 7) None;
     TaskProcessIncr "Group" seen_once (by_pk 7) None].
Proof.
  apply (every_incr_leaves_its_own_task
           [CIncr buf "Group" seen_once (by_pk 7) None;
            CProcessIncr buf "Group" seen_once (by_pk 7) None;
            CIncr buf "Group" seen_once (by_pk 7) None] world_new).
  reflexivity.
Defined.

(** ** What reaches the backing store *)

Lemma store_calls_app l1 l2 :
  store_calls (l1 ++ l2) = (store_calls l1 + store_calls l2)%nat.
Proof. unfold store_calls. rewrite List.filter_app. apply length_app. Qed.

Lemma store_calls_process_incr w self model columns filters extra :
  store_calls (log (after (process_incr self model columns filters extra w)))
  = (store_calls (log w)
     + (if bool_decide (filters !! "values" = None) then 1 else 0))%nat.
Proof.
  destruct (filters !! "values") as [v|] eqn:Hv.
  { rewrite (process_incr_duplicate_keyword _ _ _ _ _ _ v Hv).
    rewrite bool_decide_eq_false_2 by discriminate.
    unfold after; simpl. lia. }
  rewrite bool_decide_eq_true_2 by reflexivity.
  destruct (db_online w) eqn:Hon.
  - rewrite (process_incr_online _ _ _ _ _ _ Hon Hv). unfold after; simpl.
    rewrite store_calls_app. unfold store_calls at 2, completion; simpl. lia.
  - rewrite (process_incr_offline _ _ _ _ _ _ Hon Hv). unfold after, emit; simpl.
    rewrite store_calls_app. unfold store_calls at 2; simpl. lia.
Qed.

Lemma quiet_register_cb w self name cb :
  db (after (register_cb self name cb w)) = db w
  /\ log (after (register_cb self name cb w)) = log w.
Proof.
  destruct (heap w !! self) as [r|] eqn:Hself.
  - rewrite (register_cb_live _ _ _ _ _ Hself). split; reflexivity.
  - rewrite (register_cb_no_attribute _ _ _ _ Hself). split; reflexivity.
Qed.

Lemma quiet_apply w self name value :
  db (after (apply self name value w)) = db w
  /\ log (after (apply self name value w)) = log w.
Proof.
  destruct (heap w !! self) as [r|] eqn:Hself.
  - destruct (r !! name) as [cb|] eqn:Hname.
    + rewrite (apply_registered w self r name cb value Hself Hname).
      split; reflexivity.
    + rewrite (apply_unregistered w self r name value Hself Hname).
      split; reflexivity.
  - rewrite (apply_no_attribute w self name value Hself). split; reflexivity.
Qed.

Lemma exec_store c w :
  runs_callback c = false ->
  store_calls (log (exec c w))
  = (store_calls (log w) + (if reaches_store c then 1 else 0))%nat
  /\ (writes_store c = false -> db (exec c w) = db w /\ log (exec c w) = log w).
Proof.
  intros Hcb.
  destruct c as [|s n cb|s n v|s m c f e|s|s|s m c f e|s n v|s m c f e];
    cbn [exec writes_store reaches_store]; try discriminate Hcb.
  - split; [simpl; lia | intros _; split; reflexivity].
  - destruct (quiet_register_cb w s n cb) as [Hdb Hlog]. rewrite Hdb, Hlog.
    split; [lia | intros _; split; reflexivity].
  - destruct (quiet_apply w s n v) as [Hdb Hlog]. rewrite Hdb, Hlog.
    split; [lia | intros _; split; reflexivity].
  - split; [simpl; lia | intros _; split; reflexivity].
  - split; [simpl; lia | intros _; split; reflexivity].
  - split; [simpl; lia | intros _; split; reflexivity].
  - rewrite store_calls_process_incr. split; [reflexivity | discriminate].
  - split; [|discriminate].
    change (process s m c f e w)
      with (process_incr s m c f e
              (emit (EvWarn deprecation_message "DeprecationWarning") w)).
    rewrite store_calls_process_incr. unfold emit; simpl.
    rewrite store_calls_app. unfold store_calls at 2; simpl. lia.
Qed.

Lemma run_store cs : forall w,
  forallb (fun c => negb (runs_callback c)) cs = true ->
  store_calls (log (run cs w)) = (store_calls (log w) + count_writes cs)%nat
  /\ (forallb (fun c => negb (writes_store c)) cs = true ->
      db (run cs w) = db w /\ log (run cs w) = log w).
Proof.
  induction cs as [|c cs IH]; intros w Hcb; simpl.
  - unfold count_writes; simpl. split; [lia | intros _; split; reflexivity].
  - simpl in Hcb. apply andb_true_iff in Hcb. destruct Hcb as [Hc Hcs].
    apply negb_true_iff in Hc.
    destruct (exec_store c w Hc) as [Hn Hq].
    destruct (IH (exec c w) Hcs) as [Hns Hqs].
    unfold count_writes in *; simpl. split.
    + rewrite Hns, Hn. destruct (reaches_store c); simpl; lia.
    + intros Hw. apply andb_true_iff in Hw. destruct Hw as [Hwc Hws].
      apply negb_true_iff in Hwc.
      destruct (Hq Hwc) as [Hdb Hlog]. destruct (Hqs Hws) as [Hdb' Hlog'].
      rewrite Hdb', Hlog'. split; assumption.
Qed.

(** Along a sequence of calls that runs no callback, the requests sent to
    the backing store are one for each [process_incr] and each [process]
    call whose filters hold no key 'values', whether or not the store
    answers; such a call with a filter named 'values' raises before the
    store is reached, and construction, [register_cb], [apply], [incr],
    [validate] and [process_pending] send none. *)
Theorem store_requests_count_process_calls cs w :
  forallb (fun c => negb (runs_callback c)) cs = true ->
  store_calls (log (run cs w)) = (store_calls (log w) + count_writes cs)%nat.
Proof. intros H. apply run_store. exact H. Qed.

Lemma store_requests_count_process_calls_witness :
  store_calls
    (log (run [CProcessIncr buf "Group" seen_once (by_pk 7) None;
               CIncr buf "Group" seen_once (by_pk 7) None;
               CProcess buf "Group" seen_once {[ "values" := VInt 1 ]} None;
               CProcess buf "Group" seen_once (by_pk 8) None] world_offline))
  = 2%nat.
Proof.
  rewrite (store_requests_count_process_calls
             [CProcessIncr buf "Group" seen_once (by_pk 7) None;
              CIncr buf "Group" seen_once (by_pk 7) None;
              CProcess buf "Group" seen_once {[ "values" := VInt 1 ]} None;
              CProcess buf "Group" seen_once (by_pk 8) None] world_offline)
    by reflexivity.
  reflexivity.
Defined.

(** Along a sequence of construction, [register_cb], [apply], [incr],
    [validate] and [process_pending] calls, whatever their order and
    number, the backing store stays as it was and nothing is logged: no
    store request, no completion event, no warning, no callback call. *)
Theorem store_written_only_by_process_incr cs w :
  forallb (fun c => negb (runs_callback c)) cs = true ->
  forallb (fun c => negb (writes_store c)) cs = true ->
  db (run cs w) = db w /\ log (run cs w) = log w.
Proof. intros Hcb Hw. apply (run_store cs w Hcb). exact Hw. Qed.

Lemma store_written_only_by_process_incr_witness :
  db (run [CIncr buf "Group" seen_once (by_pk 7) None;
           CRegisterCb buf "flush" cb_flush;
           CApply buf "flush" (VInt 1);
           CNew;
           CProcessPending buf] world_new)
  = db world_new.
Proof.
  apply (store_written_only_by_process_incr
           [CIncr buf "Group" seen_once (by_pk 7) None;
            CRegisterCb buf "flush" cb_flush;
            CApply buf "flush" (VInt 1);
            CNew;
            CProcessPending buf] world_new); reflexivity.
Defined.

(** ** The shape of the update *)

(** The update that [process_incr] sends holds a value for every listed
    column and every key of a non-empty [extra], and for nothing else. *)
Theorem update_kwargs_keys columns extra :
  dom (update_kwargs columns extra) = dom columns ∪ dom (default ∅ extra).
Proof.
  apply set_eq. intros c.
  rewrite elem_of_union, !elem_of_dom, update_kwargs_lookup.
  unfold overrides. destruct extra as [e|]; simpl.
  - destruct (e !! c) as [x|] eqn:He.
    + split; [intros _; right; eauto | intros _; eauto].
    + rewrite fmap_is_Some. split; [auto|].
      intros [H|H]; [exact H | destruct H; discriminate].
  - rewrite fmap_is_Some, lookup_empty. split; [auto|].
    intros [H|H]; [exact H | destruct H; discriminate].
Qed.

(** For every key, the update that [process_incr] sends holds the value of
    [extra] when [extra] names the key, else the increment expression
    [F(c) + v] when [columns] maps the key to [v], else nothing; an empty
    [extra] dict leaves the same update as no [extra]. *)
Theorem update_kwargs_by_key columns extra c :
  update_kwargs columns extra !! c
  = match overrides extra c with
    | Some x => Some (Lit x)
    | None => match columns !! c with
              | Some v => Some (FAdd c v)
              | None => None
              end
    end
  /\ update_kwargs columns (Some ∅) = update_kwargs columns None.
Proof.
  split; [|reflexivity].
  rewrite update_kwargs_lookup. destruct (overrides extra c); [reflexivity|].
  destruct (columns !! c); reflexivity.
Qed.

(** Passing [extra={}] to [process_incr] does to the backing store what
    passing no [extra] does: the same request, the same rows and the same
    outcome; only the completion event tells them apart, since it carries
    [extra] as it was passed. *)
Theorem empty_extra_writes_like_none w self model columns filters :
  let a := process_incr self model columns filters (Some ∅) w in
  let b := process_incr self model columns filters None w in
  outcome a = outcome b
  /\ db (after a) = db (after b)
  /\ (db_online w = true -> filters !! "values" = None ->
      log (after a)
      = log w ++ [EvStoreCall model (update_kwargs columns None) filters;
                  completion w model columns filters (Some ∅)]
      /\ log (after b)
         = log w ++ [EvStoreCall model (update_kwargs columns None) filters;
                     completion w model columns filters None]).
Proof.
  intros a b. subst a b.
  destruct (filters !! "values") as [v|] eqn:Hv.
  { rewrite !(process_incr_duplicate_keyword _ _ _ _ _ _ v Hv).
    split; [reflexivity|]. split; [reflexivity|]. discriminate. }
  destruct (db_online w) eqn:Hon.
  - rewrite !(process_incr_online _ _ _ _ _ _ Hon Hv).
    unfold outcome, after; simpl. split; [reflexivity|].
    split; [reflexivity|]. intros _ _. split; reflexivity.
  - rewrite !(process_incr_offline _ _ _ _ _ _ Hon Hv).
    unfold outcome, after; simpl. split; [reflexivity|].
    split; [reflexivity|]. discriminate.
Qed.

Lemma empty_extra_writes_like_none_witness :
  log (after (process_incr buf "Group" seen_once (by_pk 7) (Some ∅) world_new))
  = [EvStoreCall "Group" (update_kwargs seen_once None) (by_pk 7);
     completion world_new "Group" seen_once (by_pk 7) (Some ∅)].
Proof.
  apply (empty_extra_writes_like_none world_new buf "Group" seen_once (by_pk 7));
    reflexivity.
Defined.

(** ** A store that fails *)

Lemma process_incr_store_failure_witness :
  outcome (process_incr buf "Group" seen_once (by_pk 7) None world_offline)
  = Raise OperationalError
  /\ signals (log (after (process_incr buf "Group" seen_once (by_pk 7) None
                            world_offline))) = 0%nat
  /\ db (after (process_incr buf "Group" seen_once (by_pk 7) None world_offline))
     = db world_offline.
Proof.
  apply (process_incr_store_failure world_offline buf "Group" seen_once
           (by_pk 7) None); reflexivity.
Defined.

(** ** A filter named 'values' *)

(** A filter with the key 'values' cannot be used: [process_incr] passes
    the filters as keyword arguments beside [values=update_kwargs], so the
    call raises [TypeError] before the store is reached; the world is as it
    was, with no request and no completion event.  [process] warns first and
    then ends the same way. *)
Theorem values_filter_raises_type_error w self model columns filters extra v :
  filters !! "values" = Some v ->
  process_incr self model columns filters extra w
  = (Raise (TypeError duplicate_keyword), w)
  /\ process self model columns filters extra w
     = (Raise (TypeError duplicate_keyword),
        emit (EvWarn deprecation_message "DeprecationWarning") w).
Proof.
  intros Hv. split.
  - apply (process_incr_duplicate_keyword w self model columns filters extra v Hv).
  - change (process self model columns filters extra w)
      with (process_incr self model columns filters extra
              (emit (EvWarn deprecation_message "DeprecationWarning") w)).
    apply (process_incr_duplicate_keyword _ self model columns filters extra v Hv).
Qed.

Lemma values_filter_raises_type_error_witness :
  process_incr buf "Group" seen_once {[ "values" := VInt 1 ]} None world_new
  = (Raise (TypeError duplicate_keyword), world_new).
Proof.
  apply (values_filter_raises_type_error world_new buf "Group" seen_once
           {[ "values" := VInt 1 ]} None (VInt 1)).
  reflexivity.
Defined.
